(** * drx4-logs: commit-message parser, day summariser and narrative

    A shallow embedding of the pure core of [index.ts]: [parseCommit],
    [groupByDay], [summarizeDay], [narrateDay] and the day loop of
    [getDaySummaries], together with the fragment of the JavaScript
    runtime they rely on (strings as sequences of UTF-16 code units,
    [String.prototype.split/trim/slice], [parseInt], and a backtracking
    matcher for the regular expressions that occur in the source). *)

From Stdlib Require Import ZArith NArith Bool List Lia.
From Stdlib Require Import Strings.String Strings.Ascii DecimalString.
From Stdlib Require Import Sorted.
From stdpp Require Import gmap list.

Local Open Scope N_scope.

(** ** JavaScript strings and numbers *)

(** A JavaScript string is a finite sequence of 16-bit code units.  The
    model does not bound the code units: every theorem below holds for
    arbitrary sequences, in particular for the well-formed ones. *)
Abbreviation jsstring := (list N).

(** Code unit of an ASCII character, and the string of an ASCII literal. *)
Definition ch (a : ascii) : N := N_of_ascii a.

Definition lit (s : string) : jsstring := List.map N_of_ascii (list_ascii_of_string s).

Arguments ch : simpl never.
Arguments lit : simpl never.

(** ** Numbers *)

(** The numbers the program manipulates are IEEE doubles whose value is
    an integer, an infinity or [NaN]: they come from [parseInt], from
    counters, and from [+], [-], [Math.abs] and [Math.min] on such
    values.  [Int z] is the finite double of value [z], [Inf b] the
    infinity of sign [b] ([true] for negative), [NaN] the result of
    [parseInt] on a text without digits.  The two zeros are one value:
    the text of [-0] in a template is that of [0], and [-0 !== 0] and
    [-0 > 0] are false. *)
Inductive number : Type :=
| NaN
| Inf (negative : bool)
| Int (z : Z).

(** The first magnitude that is no finite double any more. *)
Definition overflowBound : Z := (2 ^ 1024)%Z.

(** The double nearest to an integer: below 2^53 the integer itself;
    above, 53 significant bits are kept, a tie goes to the even
    neighbour, and what reaches 2^1024 is an infinity. *)
Definition roundDouble (z : Z) : number :=
  let m := Z.abs z in
  let e := (Z.log2 m - 52)%Z in
  if (e <=? 0)%Z then Int z
  else
    let q := (m / 2 ^ e)%Z in
    let r := (m mod 2 ^ e)%Z in
    let half := (2 ^ (e - 1))%Z in
    let q' := if (half <? r)%Z || ((half =? r)%Z && Z.odd q)
              then (q + 1)%Z else q in
    let m' := (q' * 2 ^ e)%Z in
    if (overflowBound <=? m')%Z then Inf (z <? 0)%Z
    else Int (Z.sgn z * m').

(** [a - b]: the exact difference rounded; opposite infinities give an
    infinity, equal ones [NaN]. *)
Definition num_sub (a b : number) : number :=
  match a, b with
  | Int x, Int y => roundDouble (x - y)
  | Inf s, Int _ => Inf s
  | Int _, Inf s => Inf (negb s)
  | Inf s, Inf t => if Bool.eqb s t then NaN else Inf s
  | _, _ => NaN
  end.

(** [a + b] *)
Definition num_add (a b : number) : number :=
  match a, b with
  | Int x, Int y => roundDouble (x + y)
  | Inf s, Int _ => Inf s
  | Int _, Inf s => Inf s
  | Inf s, Inf t => if Bool.eqb s t then Inf s else NaN
  | _, _ => NaN
  end.

(** [a > b] and [a < b]: false as soon as one side is [NaN]. *)
Definition num_gt (a b : number) : bool :=
  match a, b with
  | Int x, Int y => (y <? x)%Z
  | Inf s, Int _ => negb s
  | Int _, Inf s => s
  | Inf s, Inf t => negb s && t
  | _, _ => false
  end.

Definition num_lt (a b : number) : bool := num_gt b a.

(** [Math.abs(a)] *)
Definition num_abs (a : number) : number :=
  match a with
  | Int x => Int (Z.abs x)
  | Inf _ => Inf false
  | NaN => NaN
  end.

(** *** Number.prototype.toString *)

(** The decimal digits of a natural number. *)
Definition decimal (z : Z) : jsstring :=
  lit (NilZero.string_of_uint (N.to_uint (Z.to_N z))).

Definition number_eqb (a b : number) : bool :=
  match a, b with
  | NaN, NaN => true
  | Inf s, Inf t => Bool.eqb s t
  | Int x, Int y => (x =? y)%Z
  | _, _ => false
  end.

(** The texts [s * 10^(n-k)] of [k] digits that read back as the double
    [m]: the multiples of [10^(n-k)] on either side of [m], when they
    have [k] digits and round to [m]. *)
Definition shortCandidates (m n k : Z) : list (Z * Z) :=
  let p := (10 ^ (n - k))%Z in
  List.map (fun s => (s, n))
    (List.filter
       (fun s => (10 ^ (k - 1) <=? s)%Z && (s <? 10 ^ k)%Z
                 && number_eqb (roundDouble (s * p)) (Int m))
       [(m / p)%Z; (m / p + 1)%Z]).

(** Among candidates of [k] digits, the one nearest to [m]; of two at
    the same distance, the even one. *)
Definition nearer (m k : Z) (a b : Z * Z) : Z * Z :=
  let da := Z.abs (fst a * 10 ^ (snd a - k) - m) in
  let db := Z.abs (fst b * 10 ^ (snd b - k) - m) in
  if (da <? db)%Z then a
  else if (db <? da)%Z then b
  else if Z.even (fst a) then a else b.

Definition nearest (m k : Z) (l : list (Z * Z)) : option (Z * Z) :=
  match l with
  | [] => None
  | a :: t => Some (fold_left (nearer m k) t a)
  end.

(** The least number of digits [k], from [k] on, for which a candidate
    exists, with the digits [s] and the position [n] of the point. *)
Fixpoint shortestFrom (left : nat) (m d k : Z) : option (Z * Z * Z) :=
  match left with
  | O => None
  | S left' =>
      match nearest m k (shortCandidates m d k ++ shortCandidates m (d + 1) k) with
      | Some (s, n) => Some (s, n, k)
      | None => shortestFrom left' m d (k + 1)
      end
  end.

(** The digits [s] with the point after [n] places: zeros are appended
    up to 21 places, an exponent is written beyond. *)
Definition placeDigits (s n k : Z) : jsstring :=
  if (n <=? 21)%Z then decimal s ++ repeat (ch "0") (Z.to_nat (n - k))
  else
    match decimal s with
    | c :: t =>
        c :: (match t with [] => [] | _ :: _ => ch "." :: t end)
          ++ lit "e+" ++ decimal (n - 1)
    | [] => []
    end.

(** The text of a magnitude from 2^53 on: the shortest digits that read
    back as the same double.  (A magnitude that is no double has no such
    digits and keeps its own.) *)
Definition shortestDecimal (m : Z) : jsstring :=
  let d := Z.of_nat (length (decimal m)) in
  match shortestFrom (length (decimal m)) m d 1 with
  | Some (s, n, k) => placeDigits s n k
  | None => decimal m
  end.

(** [Number.prototype.toString]: below 2^53 every digit of the integer
    is written. *)
Definition num_toString (a : number) : jsstring :=
  match a with
  | Int x =>
      if (Z.abs x <? 2 ^ 53)%Z then lit (NilZero.string_of_int (Z.to_int x))
      else (if (x <? 0)%Z then lit "-" else []) ++ shortestDecimal (Z.abs x)
  | Inf s => (if s then lit "-" else []) ++ lit "Infinity"
  | NaN => lit "NaN"
  end.

(** ** Character classes *)

Definition isDigit (c : N) : bool := (48 <=? c) && (c <=? 57).

Definition isLower (c : N) : bool := (97 <=? c) && (c <=? 122).

Definition isUpper (c : N) : bool := (65 <=? c) && (c <=? 90).

(** [\w] is [[A-Za-z0-9_]]. *)
Definition isWordChar (c : N) : bool :=
  isLower c || isUpper c || isDigit c || (c =? 95).

(** [\s], and the characters removed by [trim]: WhiteSpace and
    LineTerminator of the language specification. *)
Definition isWhiteSpace (c : N) : bool :=
  ((9 <=? c) && (c <=? 13)) || (c =? 32) || (c =? 160) || (c =? 5760)
  || ((8192 <=? c) && (c <=? 8202)) || (c =? 8232) || (c =? 8233)
  || (c =? 8239) || (c =? 8287) || (c =? 12288) || (c =? 65279).

(** [[\d,]] and [[+-]]. *)
Definition isDigitOrComma (c : N) : bool := isDigit c || (c =? 44).

Definition isSign (c : N) : bool := (c =? 43) || (c =? 45).

(** Canonicalisation of a code unit under the [i] flag (without [u]): the
    upper-case form.  Only ASCII letters are mapped; a code unit above 127
    never canonicalises to an ASCII one, and the patterns of the source
    contain ASCII characters only, so comparisons against pattern
    characters are unaffected. *)
Definition canon (c : N) : N := if isLower c then c - 32 else c.

Definition chEq (ci : bool) (c x : N) : bool :=
  if ci then canon x =? canon c else x =? c.

(** ** String primitives *)

(** [s.split(sep)] for a one-character separator: never empty. *)
Fixpoint split (sep : N) (s : jsstring) : list jsstring :=
  match s with
  | [] => [[]]
  | c :: t =>
      if c =? sep then [] :: split sep t
      else match split sep t with
           | h :: r => (c :: h) :: r
           | [] => [[c]]
           end
  end.

Fixpoint trimStart (s : jsstring) : jsstring :=
  match s with
  | c :: t => if isWhiteSpace c then trimStart t else s
  | [] => []
  end.

Definition trimEnd (s : jsstring) : jsstring := rev (trimStart (rev s)).

Definition trim (s : jsstring) : jsstring := trimEnd (trimStart s).

(** [s.slice(n)] and [s.slice(0, n)] for a non-negative [n]. *)
Definition sliceFrom (n : nat) (s : jsstring) : jsstring := skipn n s.

Definition sliceTo (n : nat) (s : jsstring) : jsstring := firstn n s.

(** [s.replace(/,/g, "")]. *)
Definition stripCommas (s : jsstring) : jsstring :=
  List.filter (fun c => negb (c =? 44)) s.

(** [msg.split("\n")[0]]. *)
Definition firstLine (msg : jsstring) : jsstring := hd [] (split 10 msg).

(** [parts.join(sep)]. *)
Fixpoint join (sep : jsstring) (parts : list jsstring) : jsstring :=
  match parts with
  | [] => []
  | [p] => p
  | p :: ps => p ++ sep ++ join sep ps
  end.

(** ** parseInt *)

Definition digitVal (radix : Z) (c : N) : option Z :=
  let v := if isDigit c then Some (Z.of_N c - 48)%Z
           else if isLower c then Some (Z.of_N c - 87)%Z
           else if isUpper c then Some (Z.of_N c - 55)%Z
           else None in
  match v with
  | Some d => if (d <? radix)%Z then Some d else None
  | None => None
  end.

(** Value of the longest prefix of digits; [None] when it is empty. *)
Fixpoint parseDigits (radix : Z) (acc : option Z) (s : jsstring) : option Z :=
  match s with
  | c :: t =>
      match digitVal radix c with
      | Some d => parseDigits radix (Some (radix * default 0%Z acc + d)%Z) t
      | None => acc
      end
  | [] => acc
  end.

(** [parseInt(s)] with no radix argument: leading white space, a sign, a
    [0x] prefix, then the longest run of digits, whose value is rounded
    to the nearest double. *)
Definition parseInt (s : jsstring) : number :=
  let s1 := trimStart s in
  let '(sign, s2) :=
    match s1 with
    | c :: t =>
        if c =? 45 then ((-1)%Z, t)
        else if c =? 43 then (1%Z, t)
        else (1%Z, s1)
    | [] => (1%Z, s1)
    end in
  let '(radix, s3) :=
    match s2 with
    | c :: x :: t =>
        if (c =? 48) && ((x =? 120) || (x =? 88)) then (16%Z, t)
        else (10%Z, s2)
    | _ => (10%Z, s2)
    end in
  match parseDigits radix None s3 with
  | Some v => roundDouble (sign * v)
  | None => NaN
  end.

(** [parseInt(m[i])]: an undefined capture is converted to the string
    "undefined" first. *)
Definition parseIntCapture (g : option jsstring) : number :=
  parseInt (default (lit "undefined") g).

(** ** Regular expressions

    The fragment used by the source: literal characters, character
    classes, sequence, alternation, greedy [*] over a character class
    (every quantified atom of the source's patterns is a class; [c+] is
    [c c*]), greedy [?], capture groups and the assertions [^], [$] and
    [\b] (no [m] flag anywhere, so [^] and [$] are the ends of the
    input). *)
Inductive regex : Type :=
| REps
| RChar (c : N)
| RClass (p : N -> bool)
| RSeq (r1 r2 : regex)
| RAlt (r1 r2 : regex)
| RStar (p : N -> bool)
| ROpt (r : regex)
| RGroup (i : nat) (r : regex)
| RBol
| REol
| RWordB.

Declare Scope regex_scope.
Delimit Scope regex_scope with re.
Bind Scope regex_scope with regex.
Notation "a >> b" := (RSeq a b) (at level 60, right associativity) : regex_scope.

Definition RPlus (p : N -> bool) : regex := (RClass p >> RStar p)%re.

(** The pattern matching a literal string. *)
Fixpoint rstr (s : jsstring) : regex :=
  match s with
  | [] => REps
  | c :: t => (RChar c >> rstr t)%re
  end.

(** Matcher state: the code unit before the cursor (none at the start of
    the input), the input from the cursor on, and the captures made so
    far, most recent first. *)
Record mstate : Type := MState {
  prev : option N;
  rest : jsstring;
  caps : list (nat * jsstring)
}.

Definition cont : Type := mstate -> option mstate.

Definition isWordOpt (c : option N) : bool :=
  match c with
  | Some x => isWordChar x
  | None => false
  end.

(** Text consumed between two cursors of the same input. *)
Definition consumed (from to : jsstring) : jsstring :=
  firstn (length from - length to)%nat from.

(** Greedy iteration of a class: take one more character if possible and
    fall back to the continuation at the current cursor. *)
Fixpoint star (p : N -> bool) (k : cont) (pv : option N)
    (cs : list (nat * jsstring)) (l : jsstring) : option mstate :=
  match l with
  | x :: t =>
      if p x then
        match star p k (Some x) cs t with
        | Some r => Some r
        | None => k (MState pv l cs)
        end
      else k (MState pv l cs)
  | [] => k (MState pv [] cs)
  end.

(** Backtracking matcher in continuation-passing style: [rmatch ci r k s]
    matches [r] at [s] and hands every candidate end state, in priority
    order, to [k] until [k] accepts one. *)
Fixpoint rmatch (ci : bool) (r : regex) (k : cont) (s : mstate) : option mstate :=
  match r with
  | REps => k s
  | RChar c =>
      match rest s with
      | x :: t => if chEq ci c x then k (MState (Some x) t (caps s)) else None
      | [] => None
      end
  | RClass p =>
      match rest s with
      | x :: t => if p x then k (MState (Some x) t (caps s)) else None
      | [] => None
      end
  | RSeq a b => rmatch ci a (rmatch ci b k) s
  | RAlt a b =>
      match rmatch ci a k s with
      | Some res => Some res
      | None => rmatch ci b k s
      end
  | RStar p => star p k (prev s) (caps s) (rest s)
  | ROpt a =>
      match rmatch ci a k s with
      | Some res => Some res
      | None => k s
      end
  | RGroup i a =>
      rmatch ci a
        (fun s' => k (MState (prev s') (rest s')
                        ((i, consumed (rest s) (rest s')) :: caps s')))
        s
  | RBol => match prev s with None => k s | Some _ => None end
  | REol => match rest s with [] => k s | _ :: _ => None end
  | RWordB =>
      if xorb (isWordOpt (prev s)) (isWordOpt (head (rest s))) then k s else None
  end.

(** The match array: [m[0]] and the numbered captures. *)
Record matchResult : Type := MatchResult {
  whole : jsstring;
  groups : list (nat * jsstring)
}.

Fixpoint lookupGroup (i : nat) (g : list (nat * jsstring)) : option jsstring :=
  match g with
  | (j, v) :: t => if Nat.eqb i j then Some v else lookupGroup i t
  | [] => None
  end.

(** [m[i]] for [i >= 1]; [None] is [undefined]. *)
Definition group (i : nat) (m : matchResult) : option jsstring :=
  lookupGroup i (groups m).

(** [RegExp.prototype.exec] without [g] or [y]: the first start position,
    from the left, at which the pattern matches. *)
Fixpoint execFrom (ci : bool) (r : regex) (pv : option N) (l : jsstring)
    : option matchResult :=
  match rmatch ci r Some (MState pv l []) with
  | Some s => Some (MatchResult (consumed l (rest s)) (caps s))
  | None =>
      match l with
      | x :: t => execFrom ci r (Some x) t
      | [] => None
      end
  end.

(** A pattern with its flag: [ci] is the [i] flag. *)
Record RegExp : Type := mkRegExp { pattern : regex; ignoreCase : bool }.

(** [s.match(re)] and [re.test(s)]. *)
Definition js_match (re : RegExp) (s : jsstring) : option matchResult :=
  execFrom (ignoreCase re) (pattern re) None s.

Definition test (re : RegExp) (s : jsstring) : bool :=
  match js_match re s with
  | Some _ => true
  | None => false
  end.

(** ** The patterns of [parseCommit] *)

Definition digit : regex := RClass isDigit.

(** [/^Cycle\s+(\d+)(?:-\d+)?:/] *)
Definition cycleRe : RegExp :=
  mkRegExp (RBol >> rstr (lit "Cycle") >> RPlus isWhiteSpace >>
            RGroup 1 (RPlus isDigit) >>
            ROpt (RChar (ch "-") >> RPlus isDigit) >> RChar (ch ":"))%re
           false.

(** [/\bidle\b/i] *)
Definition idleRe : RegExp :=
  mkRegExp (RWordB >> rstr (lit "idle") >> RWordB)%re true.

(** [/\b(fail|error|blocked)\b/i]: the capture and the whole pattern. *)
Definition errorWords : regex :=
  RGroup 1 (RAlt (rstr (lit "fail"))
              (RAlt (rstr (lit "error")) (rstr (lit "blocked")))).

Definition errorRe : RegExp :=
  mkRegExp (RWordB >> errorWords >> RWordB)%re true.

(** [/heartbeat\s+#(\d+)/i] *)
Definition heartbeatRe : RegExp :=
  mkRegExp (rstr (lit "heartbeat") >> RPlus isWhiteSpace >> RChar (ch "#") >>
            RGroup 1 (RPlus isDigit))%re true.

(** [/balance\s+([\d,]+)\s*sats/i] *)
Definition balanceRe : RegExp :=
  mkRegExp (rstr (lit "balance") >> RPlus isWhiteSpace >>
            RGroup 1 (RPlus isDigitOrComma) >> RStar isWhiteSpace >>
            rstr (lit "sats"))%re true.

(** The delta pattern: an opening parenthesis, the capture
    [[+-]\d[\d,]*] and a closing parenthesis; no flag. *)
Definition deltaRe : RegExp :=
  mkRegExp (RChar (ch "(") >>
            RGroup 1 (RClass isSign >> digit >> RStar isDigitOrComma) >>
            RChar (ch ")"))%re false.

(** [/^idle$/i] *)
Definition idlePartRe : RegExp :=
  mkRegExp (RBol >> rstr (lit "idle") >> REol)%re true.

(** [/^heartbeat\s+#\d+$/i] *)
Definition heartbeatPartRe : RegExp :=
  mkRegExp (RBol >> rstr (lit "heartbeat") >> RPlus isWhiteSpace >>
            RChar (ch "#") >> RPlus isDigit >> REol)%re true.

(** [/^balance\s+[\d,]+\s*sats(\s*\([+-][\d,]+\))?$/i] *)
Definition balancePartRe : RegExp :=
  mkRegExp (RBol >> rstr (lit "balance") >> RPlus isWhiteSpace >>
            RPlus isDigitOrComma >> RStar isWhiteSpace >> rstr (lit "sats") >>
            ROpt (RGroup 1 (RStar isWhiteSpace >> RChar (ch "(") >>
                            RClass isSign >> RPlus isDigitOrComma >>
                            RChar (ch ")"))) >>
            REol)%re true.

(** [/^GitHub clean$/i] *)
Definition githubCleanRe : RegExp :=
  mkRegExp (RBol >> rstr (lit "GitHub clean") >> REol)%re true.

(** ** Records *)

Inductive Status : Type := idle | active | error | manual.

Record CycleEntry : Type := mkCycleEntry {
  cycle : option number;
  status : Status;
  message : jsstring;
  timestamp : jsstring;
  heartbeat : option number;
  balance : option number;
  balanceDelta : option number;
  events : list jsstring
}.

(** ** parseCommit *)

(** The cascade that sets [entry.status] for a cycle commit. *)
Definition classify (body : jsstring) : Status :=
  if test idleRe body then idle
  else if test errorRe body then error
  else active.

(** The loop over [body.split(",").map(trim)]: the parts that survive the
    four [continue] tests and are not empty. *)
Definition keepPart (part : jsstring) : bool :=
  negb (test idlePartRe part)
  && negb (test heartbeatPartRe part)
  && negb (test balancePartRe part)
  && negb (test githubCleanRe part)
  && (0 <? length part)%nat.

Definition notableParts (body : jsstring) : list jsstring :=
  List.filter keepPart (List.map trim (split (ch ",") body)).

(** [msg.slice(cycleMatch[0].length).trim()] *)
Definition bodyOf (msg : jsstring) (cycleMatch : matchResult) : jsstring :=
  trim (sliceFrom (length (whole cycleMatch)) msg).

(** [m[1].replace(/,/g, "")] followed by [parseInt].  The capture is
    outside every optional part of its pattern, so it is defined whenever
    the pattern matched. *)
Definition parseAmount (m : matchResult) : number :=
  parseInt (stripCommas (default [] (group 1 m))).

Definition parseCommit (msg timestamp : jsstring) : CycleEntry :=
  match js_match cycleRe msg with
  | None =>
      mkCycleEntry None manual (firstLine msg) timestamp None None None
        [firstLine msg]
  | Some cycleMatch =>
      let body := bodyOf msg cycleMatch in
      mkCycleEntry
        (Some (parseIntCapture (group 1 cycleMatch)))
        (classify body)
        (firstLine msg)
        timestamp
        (match js_match heartbeatRe body with
         | Some hbMatch => Some (parseIntCapture (group 1 hbMatch))
         | None => None
         end)
        (match js_match balanceRe body with
         | Some balMatch => Some (parseAmount balMatch)
         | None => None
         end)
        (match js_match deltaRe body with
         | Some deltaMatch => Some (parseAmount deltaMatch)
         | None => None
         end)
        (notableParts body)
  end.

(** ** groupByDay *)

(** The fields of a commit of the hosting API that the program reads:
    [c.commit.message] and [c.commit.author.date]. *)
Record Commit : Type := mkCommit {
  sha : jsstring;
  commit_message : jsstring;
  commit_author_date : jsstring
}.

(** One iteration of the loop of [groupByDay] on the [Map] [days]. *)
Definition groupStep (days : gmap jsstring (list CycleEntry)) (c : Commit)
    : gmap jsstring (list CycleEntry) :=
  let ts := commit_author_date c in
  let date := sliceTo 10 ts in
  let entry := parseCommit (commit_message c) ts in
  let days1 := match days !! date with
               | Some _ => days
               | None => <[date := []]> days
               end in
  <[date := default [] (days1 !! date) ++ [entry]]> days1.

Definition groupByDay (commits : list Commit) : gmap jsstring (list CycleEntry) :=
  fold_left groupStep (rev commits) ∅.

(** ** summarizeDay *)

(** [events] and [balanceDelta] of the source are [dayEvents] and
    [dayBalanceDelta] here, the names being taken by [CycleEntry]. *)
Record DaySummary : Type := mkDaySummary {
  date : jsstring;
  cycles : list CycleEntry;
  totalCycles : nat;
  activeCycles : nat;
  idleCycles : nat;
  errorCycles : nat;
  manualCommits : nat;
  balanceStart : option number;
  balanceEnd : option number;
  dayBalanceDelta : option number;
  heartbeatStart : option number;
  heartbeatEnd : option number;
  dayEvents : list jsstring
}.

(** The local variables of [summarizeDay] that its loop updates. *)
Record Tally : Type := mkTally {
  nIdle : nat;
  nActive : nat;
  nError : nat;
  nManual : nat;
  allEvents : list jsstring;
  balStart : option number;
  balEnd : option number;
  hbStart : option number;
  hbEnd : option number
}.

Definition tally0 : Tally := mkTally 0 0 0 0 [] None None None None.

(** [cycleCounts[c.status]++] *)
Definition bump (st : Status) (t : Tally) : Tally :=
  match st with
  | idle => mkTally (S (nIdle t)) (nActive t) (nError t) (nManual t)
              (allEvents t) (balStart t) (balEnd t) (hbStart t) (hbEnd t)
  | active => mkTally (nIdle t) (S (nActive t)) (nError t) (nManual t)
                (allEvents t) (balStart t) (balEnd t) (hbStart t) (hbEnd t)
  | error => mkTally (nIdle t) (nActive t) (S (nError t)) (nManual t)
               (allEvents t) (balStart t) (balEnd t) (hbStart t) (hbEnd t)
  | manual => mkTally (nIdle t) (nActive t) (nError t) (S (nManual t))
                (allEvents t) (balStart t) (balEnd t) (hbStart t) (hbEnd t)
  end.

(** First and last present value: [if (v !== null) { if (start === null)
    start = v; end = v; }] *)
Definition track (v : option number) (se : option number * option number)
    : option number * option number :=
  match v with
  | Some x => (match fst se with None => Some x | Some s => Some s end, Some x)
  | None => se
  end.

(** The body of the loop of [summarizeDay]. *)
Definition tallyStep (t : Tally) (c : CycleEntry) : Tally :=
  let t1 := bump (status c) t in
  let b := track (balance c) (balStart t1, balEnd t1) in
  let h := track (heartbeat c) (hbStart t1, hbEnd t1) in
  mkTally (nIdle t1) (nActive t1) (nError t1) (nManual t1)
    (allEvents t1 ++ events c) (fst b) (snd b) (fst h) (snd h).

Definition summarizeDay (date : jsstring) (cycles : list CycleEntry) : DaySummary :=
  let t := fold_left tallyStep cycles tally0 in
  mkDaySummary date cycles
    (nIdle t + nActive t + nError t)
    (nActive t) (nIdle t) (nError t) (nManual t)
    (balStart t) (balEnd t)
    (match balStart t, balEnd t with
     | Some s, Some e => Some (num_sub e s)
     | _, _ => None
     end)
    (hbStart t) (hbEnd t)
    (allEvents t).

(** ** narrateDay *)

(** A counter as a [number], and its decimal text in a template.  A
    counter is at most the length of an array, far below 2^53. *)
Definition ofCount (n : nat) : number := Int (Z.of_nat n).

Definition showCount (n : nat) : jsstring := num_toString (ofCount n).

(** [[...new Set(xs)]]: the elements in insertion order, each once. *)
Definition setAdd (seen : list jsstring) (x : jsstring) : list jsstring :=
  if decide (x ∈ seen) then seen else seen ++ [x].

Definition uniqueOf (xs : list jsstring) : list jsstring :=
  fold_left setAdd xs [].

Section Narrative.

(** [Number.prototype.toLocaleString] depends on the locale of the host. *)
Variable toLocaleString : number -> jsstring.

(** The first [if / else if] chain, entered when the day is not empty. *)
Definition cyclesPart (day : DaySummary) : list jsstring :=
  if (totalCycles day =? 0)%nat && (0 <? manualCommits day)%nat then
    [showCount (manualCommits day) ++ lit " manual action"
     ++ (if (1 <? manualCommits day)%nat then lit "s" else [])
     ++ lit " logged (no autonomous cycles)."]
  else if (0 <? activeCycles day)%nat && (0 <? idleCycles day)%nat then
    [lit "Ran " ++ showCount (totalCycles day) ++ lit " cycles &mdash; "
     ++ showCount (activeCycles day) ++ lit " active, "
     ++ showCount (idleCycles day) ++ lit " on standby."]
  else if (activeCycles day =? 0)%nat then
    [lit "Ran " ++ showCount (totalCycles day)
     ++ lit " cycles, all on standby watching for messages and tasks."]
  else
    [lit "Ran " ++ showCount (totalCycles day) ++ lit " cycles, all active."].

Definition errorPart (day : DaySummary) : list jsstring :=
  if (0 <? errorCycles day)%nat then
    [lit "Hit " ++ showCount (errorCycles day) ++ lit " issue"
     ++ (if (1 <? errorCycles day)%nat then lit "s" else [])
     ++ lit " (see details below)."]
  else [].

(** The balance clause.  [day.balanceEnd!] is dereferenced without a
    test in the first two branches: [None] is the [TypeError] raised when
    it is [null]. *)
Definition balancePart (day : DaySummary) : option (list jsstring) :=
  match dayBalanceDelta day with
  | Some d =>
      if num_gt d (Int 0) then
        match balanceEnd day with
        | Some e => Some [lit "Balance grew by " ++ toLocaleString d
                          ++ lit " sats to " ++ toLocaleString e ++ lit " sats."]
        | None => None
        end
      else if num_lt d (Int 0) then
        match balanceEnd day with
        | Some e => Some [lit "Spent " ++ toLocaleString (num_abs d)
                          ++ lit " sats &mdash; balance now "
                          ++ toLocaleString e ++ lit " sats."]
        | None => None
        end
      else
        match balanceEnd day with
        | Some e => Some [lit "Balance steady at " ++ toLocaleString e ++ lit " sats."]
        | None => Some []
        end
  | None =>
      match balanceEnd day with
      | Some e => Some [lit "Balance steady at " ++ toLocaleString e ++ lit " sats."]
      | None => Some []
      end
  end.

Definition heartbeatPart (day : DaySummary) : list jsstring :=
  match heartbeatStart day, heartbeatEnd day with
  | Some hs, Some he =>
      let hbCount := num_add (num_sub he hs) (Int 1) in
      if num_gt hbCount (Int 1) then
        [lit "Sent " ++ num_toString hbCount ++ lit " heartbeats to AIBTC."]
      else
        [lit "Sent 1 heartbeat to AIBTC."]
  | _, _ => []
  end.

Definition eventsPart (day : DaySummary) : list jsstring :=
  if (0 <? length (dayEvents day))%nat then
    let unique := uniqueOf (dayEvents day) in
    if (length unique <=? 3)%nat then
      [lit "Notable: " ++ join (lit ". ") unique ++ lit "."]
    else
      [lit "Notable: " ++ join (lit ". ") (firstn 3 unique)
       ++ lit ", and " ++ showCount (length unique - 3) ++ lit " more."]
  else [].

(** The array [parts] when the function reaches its last line. *)
Definition narrateParts (day : DaySummary) : option (list jsstring) :=
  match balancePart day with
  | Some bal =>
      Some (cyclesPart day ++ errorPart day ++ bal
            ++ heartbeatPart day ++ eventsPart day)
  | None => None
  end.

Definition narrateDay (day : DaySummary) : option jsstring :=
  if (totalCycles day =? 0)%nat && (manualCommits day =? 0)%nat then
    Some (lit "No recorded activity this day.")
  else
    match narrateParts day with
    | Some parts => Some (join (lit " ") parts)
    | None => None
    end.

End Narrative.

(** ** getDaySummaries *)

Section Days.

(** The environment of one run: the clock, read through [daysAgo] and
    [new Date().toISOString()] and taken to stand still during the run,
    and the answer of the hosting API to [fetchCommits(since, until)]. *)
Variable daysAgo : Z -> jsstring.
Variable nowISO : jsstring.
Variable fetchCommits : jsstring -> jsstring -> list Commit.

(** [grouped.get(date) || []] *)
Definition recordsOn (grouped : gmap jsstring (list CycleEntry)) (d : jsstring)
    : list CycleEntry :=
  default [] (grouped !! d).

(** The body of the [for] loop at index [i]: the summaries it pushes. *)
Definition dayAt (grouped : gmap jsstring (list CycleEntry)) (i : nat)
    : list DaySummary :=
  let date := daysAgo (Z.of_nat i) in
  let cycles := recordsOn grouped date in
  if (length cycles =? 0)%nat && (0 <? i)%nat then []
  else [summarizeDay date cycles].

(** The first lines of [getDaySummaries]: fetch and group. *)
Definition fetchGrouped (n : Z) : gmap jsstring (list CycleEntry) :=
  let since := daysAgo n ++ lit "T00:00:00Z" in
  let until := nowISO in
  let commits := fetchCommits since until in
  groupByDay commits.

(** [n] is an integer here; the loop [for (i = 0; i < n; i++)] does not
    run when [n <= 0].  This is the list of a run that returns: a run in
    which [daysAgo] raises a [RangeError] (a day count that is [NaN],
    infinite, or so large that the date leaves the range of [Date]) or
    in which the promise of [fetchCommits] is rejected returns no
    list. *)
Definition getDaySummaries (n : Z) : list DaySummary :=
  let grouped := fetchGrouped n in
  flat_map (dayAt grouped) (seq 0 (Z.to_nat n)).

End Days.


(** ** escapeHtml *)

(** [s.replace(/c/g, r)] for a pattern of one literal character and a
    replacement text without [$]. *)
Definition replaceAll (c : N) (r : jsstring) (s : jsstring) : jsstring :=
  flat_map (fun x => if x =? c then r else [x]) s.

(** The four replacements in the order of the source; 34 is the double
    quote. *)
Definition escapeHtml (s : jsstring) : jsstring :=
  replaceAll 34 (lit "&quot;")
    (replaceAll (ch ">") (lit "&gt;")
       (replaceAll (ch "<") (lit "&lt;")
          (replaceAll (ch "&") (lit "&amp;") s))).

(** ** narrateCycle *)

(** [s.slice(a, b)] for [0 <= a <= b]. *)
Definition sliceRange (a b : nat) (s : jsstring) : jsstring :=
  firstn (b - a) (skipn a s).

(** [d !== 0] *)
Definition num_nonzero (d : number) : bool :=
  match d with
  | Int z => negb (z =? 0)%Z
  | Inf _ => true
  | NaN => true
  end.

(** The first element of [parts]. *)
Definition statusPhrase (st : Status) : jsstring :=
  match st with
  | idle => lit "checked in (idle)"
  | error => lit "ran into an issue"
  | _ => lit "was active"
  end.

(** The delta annotation pushed on [parts]. *)
Definition deltaSpan (d : number) : jsstring :=
  lit "(<span class=" ++ [34] ++ lit "tl-delta "
  ++ (if num_gt d (Int 0) then lit "pos" else lit "neg") ++ [34] ++ lit ">"
  ++ (if num_gt d (Int 0) then lit "+" else []) ++ num_toString d
  ++ lit " sats</span>)".

Definition narrateCycle (c : CycleEntry) : jsstring :=
  let time := sliceRange 11 16 (timestamp c) in
  match cycle c with
  | None =>
      lit "<strong>" ++ time ++ lit "</strong> &mdash; " ++ escapeHtml (message c)
  | Some n =>
      let parts :=
        [statusPhrase (status c)]
        ++ (if (0 <? length (events c))%nat
            then [lit "&mdash; " ++ escapeHtml (join (lit ", ") (events c))]
            else [])
        ++ (match balanceDelta c with
            | Some d => if num_nonzero d then [deltaSpan d] else []
            | None => []
            end) in
      lit "<strong>" ++ time ++ lit "</strong> Cycle " ++ num_toString n
      ++ lit ": " ++ join (lit " ") parts
  end.

(** ** fetchCommits *)

(** What one request gives: the promise of [fetch] or of [res.json()]
    is rejected, the status is not ok, or the page of commits. *)
Inductive response : Type :=
| Rejected
| NotOk
| Ok (data : list Commit).

Definition perPage : nat := 100.

Section Fetch.

(** The hosting API, as a function of the requested URL (the headers
    are fixed). *)
Variable fetch : jsstring -> response.

Variable since until : jsstring.

Definition commitsUrl (page : nat) : jsstring :=
  lit "https://api.github.com/repos/secret-mars/drx4/commits?since=" ++ since
  ++ lit "&until=" ++ until ++ lit "&per_page=" ++ showCount perPage
  ++ lit "&page=" ++ showCount page.

(** The loop [while (page <= 10)], by recursion on the number of pages
    left, [11 - page].  [None] is a rejected promise. *)
Fixpoint fetchPages (left page : nat) (commits : list Commit)
    : option (list Commit) :=
  match left with
  | O => Some commits
  | S left' =>
      match fetch (commitsUrl page) with
      | Rejected => None
      | NotOk => Some commits
      | Ok data =>
          if (length data =? 0)%nat then Some commits
          else if (length data <? perPage)%nat then Some (commits ++ data)
          else fetchPages left' (S page) (commits ++ data)
      end
  end.

Definition fetchCommits : option (list Commit) := fetchPages 10 1 [].

End Fetch.

(** ** The day count of [/api/days] *)

(** [Math.min(a, b)] *)
Definition num_min (a b : number) : number :=
  match a, b with
  | NaN, _ | _, NaN => NaN
  | Int x, Int y => Int (Z.min x y)
  | Inf s, Int y => if s then Inf true else Int y
  | Int x, Inf s => if s then Inf true else Int x
  | Inf s, Inf t => Inf (s || t)
  end.

(** [Math.min(parseInt(url.searchParams.get("n") || "7"), 30)]: the
    parameter is [None] when absent, and the empty text is falsy. *)
Definition daysParam (n : option jsstring) : number :=
  let text := match n with
              | Some s => if (0 <? length s)%nat then s else lit "7"
              | None => lit "7"
              end in
  num_min (parseInt text) (Int 30).

(** * Specification-side definitions

    What the properties below are stated with: a declarative account of
    matching, and the shapes of text the patterns stand for. *)

(** ** Declarative matching

    [reach ci r s s'] holds when [r] can match from the cursor [s] and
    leave the cursor at [s'].  The backtracking matcher explores exactly
    these end states. *)
Inductive reach (ci : bool) : regex -> mstate -> mstate -> Prop :=
| reach_eps s : reach ci REps s s
| reach_char c x t pv cs :
    chEq ci c x = true ->
    reach ci (RChar c) (MState pv (x :: t) cs) (MState (Some x) t cs)
| reach_class (p : N -> bool) x t pv cs :
    p x = true ->
    reach ci (RClass p) (MState pv (x :: t) cs) (MState (Some x) t cs)
| reach_seq a b s1 s2 s3 :
    reach ci a s1 s2 -> reach ci b s2 s3 -> reach ci (RSeq a b) s1 s3
| reach_alt_l a b s s' : reach ci a s s' -> reach ci (RAlt a b) s s'
| reach_alt_r a b s s' : reach ci b s s' -> reach ci (RAlt a b) s s'
| reach_star_stop (p : N -> bool) s : reach ci (RStar p) s s
| reach_star_more (p : N -> bool) x t pv cs s' :
    p x = true ->
    reach ci (RStar p) (MState (Some x) t cs) s' ->
    reach ci (RStar p) (MState pv (x :: t) cs) s'
| reach_opt_take a s s' : reach ci a s s' -> reach ci (ROpt a) s s'
| reach_opt_skip a s : reach ci (ROpt a) s s
| reach_group i a s s' :
    reach ci a s s' ->
    reach ci (RGroup i a) s
      (MState (prev s') (rest s') ((i, consumed (rest s) (rest s')) :: caps s'))
| reach_bol s : prev s = None -> reach ci RBol s s
| reach_eol s : rest s = [] -> reach ci REol s s
| reach_wordb s :
    xorb (isWordOpt (prev s)) (isWordOpt (head (rest s))) = true ->
    reach ci RWordB s s.

(** The code unit before a cursor placed after [l1], when [pv] is the
    one before [l1]. *)
Definition prevAfter (pv : option N) (l1 : jsstring) : option N :=
  match last l1 with
  | Some x => Some x
  | None => pv
  end.

(** Every code unit of [w] is in the class [p]. *)
Definition allOf (p : N -> bool) (w : jsstring) : Prop :=
  Forall (fun x => p x = true) w.

(** The cursor of [s] moved over [w], leaving [l]. *)
Definition advance (s : mstate) (w l : jsstring) : mstate :=
  MState (prevAfter (prev s) w) l (caps s).

(** A literal pattern matches the texts equal to it, up to case under
    the [i] flag. *)
Definition sameText (ci : bool) (w w' : jsstring) : Prop :=
  Forall2 (fun c x => chEq ci c x = true) w w'.

(** ** The cycle prefix

    [pre] is a cycle prefix with number [num]: "Cycle", white space, the
    digits [num], optionally a dash and more digits, and a colon. *)
Definition isCyclePrefix (pre num : jsstring) : Prop :=
  exists w r,
    pre = lit "Cycle" ++ w ++ num ++ r ++ [ch ":"] /\
    w <> [] /\ allOf isWhiteSpace w /\
    num <> [] /\ allOf isDigit num /\
    (r = [] \/ exists d2, r = ch "-" :: d2 /\ d2 <> [] /\ allOf isDigit d2).

(** [T] matches "Cycle <integer>[-<integer>]:" at its start. *)
Definition cyclePrefix (T : jsstring) : Prop :=
  exists pre num tail, isCyclePrefix pre num /\ T = pre ++ tail.

(** A run of [p] ends at [a]: at the end of the text or before a code
    unit outside [p]. *)
Definition stops (p : N -> bool) (a : jsstring) : Prop :=
  match a with
  | [] => True
  | x :: _ => p x = false
  end.

(** ** Words *)

(** [body] contains the word [w]: an occurrence equal to [w] up to case
    that is neither preceded nor followed by a word character. *)
Definition containsWord (w body : jsstring) : Prop :=
  exists pre mid post,
    body = pre ++ mid ++ post /\
    List.map canon mid = List.map canon w /\
    isWordOpt (last pre) = false /\
    isWordOpt (head post) = false.

(** [m] is one of "fail", "error" and "blocked", up to case. *)
Definition isErrorWord (m : jsstring) : Prop :=
  List.map canon m = List.map canon (lit "fail") \/
  List.map canon m = List.map canon (lit "error") \/
  List.map canon m = List.map canon (lit "blocked").

(** [body] contains one of the error words. *)
Definition hasErrorWord (body : jsstring) : Prop :=
  containsWord (lit "fail") body \/ containsWord (lit "error") body
  \/ containsWord (lit "blocked") body.

(** ** Counting records *)

#[global] Instance Status_eq_dec : EqDecision Status.
Proof. solve_decision. Defined.

(** Number of records of a day with a given status. *)
Definition countStatus (st : Status) (cs : list CycleEntry) : nat :=
  length (filter (fun c => status c = st) cs).

(** ** Parenthesised deltas *)

(** [body] contains a signed number in parentheses: a sign, a digit,
    then digits and commas. *)
Definition hasParenDelta (body : jsstring) : Prop :=
  exists pre sg d ds post,
    body = pre ++ ch "(" :: sg :: d :: ds ++ ch ")" :: post /\
    isSign sg = true /\ isDigit d = true /\ allOf isDigitOrComma ds.

(** ** Days kept by a run *)

(** The summary of the day [i] days before today. *)
Definition summaryAt (daysAgo : Z -> jsstring)
    (grouped : gmap jsstring (list CycleEntry)) (i : nat) : DaySummary :=
  summarizeDay (daysAgo (Z.of_nat i)) (recordsOn grouped (daysAgo (Z.of_nat i))).

(** The summary of a day without records. *)
Definition emptySummary (date : jsstring) : DaySummary :=
  mkDaySummary date [] 0 0 0 0 0 None None None None None [].

(** ** Wording of the narrative *)

(** The count [heartbeatEnd - heartbeatStart + 1], in the arithmetic of
    doubles. *)
Definition heartbeatCount (hs he : number) : number :=
  num_add (num_sub he hs) (Int 1).

(** The heartbeat sentence for a count: singular for 1, plural
    otherwise. *)
Definition heartbeatSentence (count : number) : jsstring :=
  if number_eqb count (Int 1) then lit "Sent 1 heartbeat to AIBTC."
  else lit "Sent " ++ num_toString count ++ lit " heartbeats to AIBTC.".

(** Order-preserving removal of duplicates that keeps the first
    occurrence of each element. *)
Fixpoint keepFirst (xs : list jsstring) : list jsstring :=
  match xs with
  | [] => []
  | x :: t => x :: filter (fun y => y <> x) (keepFirst t)
  end.

(** ** Numbers *)

(** A number that is not negative: a non-negative integer or the
    positive infinity. *)
Definition nonNegative (v : number) : Prop :=
  match v with
  | Int z => (0 <= z)%Z
  | Inf s => s = false
  | NaN => False
  end.

(** ** Decimal numerals *)

(** The value of a string of decimal digits. *)
Definition decimalValue (ds : jsstring) : Z :=
  fold_left (fun acc c => (10 * acc + (Z.of_N c - 48))%Z) ds 0%Z.

(** ** Substrings and edges *)

(** [p] occurs in [s] as a contiguous piece. *)
Definition substringOf (p s : jsstring) : Prop :=
  exists a b, s = a ++ p ++ b.

(** [s] neither starts nor ends with white space. *)
Definition noEdgeSpace (s : jsstring) : Prop :=
  (forall x, head s = Some x -> isWhiteSpace x = false) /\
  (forall x, last s = Some x -> isWhiteSpace x = false).

(** [part] reads "heartbeat", white space, "#" and digits, up to case. *)
Definition heartbeatShape (part : jsstring) : Prop :=
  exists h w ds,
    part = h ++ w ++ ch "#" :: ds /\
    List.map canon h = List.map canon (lit "heartbeat") /\
    w <> [] /\ allOf isWhiteSpace w /\ ds <> [] /\ allOf isDigit ds.

(** ** Commits of a day *)

(** The date key and the record of a commit, as [groupByDay] computes
    them. *)
Definition dateOf (c : Commit) : jsstring :=
  sliceTo 10 (commit_author_date c).

Definition recordOf (c : Commit) : CycleEntry :=
  parseCommit (commit_message c) (commit_author_date c).

(** ** HTML escaping *)

(** The four characters that [escapeHtml] rewrites: ampersand, angle
    brackets and double quote. *)
Definition isHtmlSpecial (x : N) : bool :=
  (x =? 38) || (x =? 60) || (x =? 62) || (x =? 34).

(** The entity of a special character; any other character stays. *)
Definition escapeChar (x : N) : jsstring :=
  if x =? 38 then lit "&amp;"
  else if x =? 60 then lit "&lt;"
  else if x =? 62 then lit "&gt;"
  else if x =? 34 then lit "&quot;"
  else [x].

(** ** A sample API *)

Definition sampleCommit : Commit :=
  mkCommit (lit "4f2a9c1") (lit "Cycle 1: idle") (lit "2026-02-14T09:30:00Z").

(** Two pages for one time window: 100 commits, then 3; nothing else. *)
Definition sampleFetch (url : jsstring) : response :=
  if decide (url = commitsUrl (lit "2026-02-07T00:00:00Z")
                     (lit "2026-02-14T12:00:00.000Z") 1)
  then Ok (replicate 100 sampleCommit)
  else if decide (url = commitsUrl (lit "2026-02-07T00:00:00Z")
                          (lit "2026-02-14T12:00:00.000Z") 2)
  then Ok (replicate 3 sampleCommit)
  else NotOk.

(** ** A sample run *)

(** A clock on 14 February 2026, for the offsets that stay in that
    month, and the commits of three cycles on two days, newest first as
    the API lists them. *)
Definition sampleDaysAgo (i : Z) : jsstring :=
  lit "2026-02-" ++ (if (14 - i <? 10)%Z then lit "0" else []) ++ decimal (14 - i).

Definition sampleNow : jsstring := lit "2026-02-14T12:00:00.000Z".

Definition sampleCommits (since until : jsstring) : list Commit :=
  [mkCommit (lit "c3") (lit "Cycle 8: sent reply") (lit "2026-02-14T10:30:00Z");
   mkCommit (lit "c2") (lit "Cycle 7: idle") (lit "2026-02-14T09:30:00Z");
   mkCommit (lit "c1") (lit "Cycle 6: idle") (lit "2026-02-12T09:30:00Z")].

(** * Theory of the matcher *)

(** ** The matcher against declarative matching *)

#[local] Hint Constructors reach : core.

Lemma mstate_eta s : MState (prev s) (rest s) (caps s) = s.
Proof. by destruct s. Qed.

Lemma star_sound p k pv cs l res :
  star p k pv cs l = Some res ->
  exists s', reach false (RStar p) (MState pv l cs) s' /\ k s' = Some res.
Proof.
  revert pv. induction l as [|x t IH]; intros pv; simpl.
  - intros H. eauto.
  - destruct (p x) eqn:Hp; [|eauto].
    destruct (star p k (Some x) cs t) eqn:Hs.
    + intros [= ->]. destruct (IH _ Hs) as (s' & Hr & Hk). eauto.
    + eauto.
Qed.

Lemma reach_star_flag ci ci' p s s' :
  reach ci (RStar p) s s' -> reach ci' (RStar p) s s'.
Proof.
  intros H. remember (RStar p) as r eqn:Er.
  induction H; inversion Er; subst; eauto.
Qed.

(** Soundness: an accepted match ends in a reachable state that the
    continuation accepts with the same answer. *)
Lemma rmatch_sound ci r : forall k s res,
  rmatch ci r k s = Some res ->
  exists s', reach ci r s s' /\ k s' = Some res.
Proof.
  induction r as [|c|p|a IHa b IHb|a IHa b IHb|p|a IHa|i a IHa| | |];
    intros k s res; simpl.
  - eauto.
  - destruct s as [pv [|x t] cs]; simpl; [done|].
    destruct (chEq ci c x) eqn:E; [|done]. eauto.
  - destruct s as [pv [|x t] cs]; simpl; [done|].
    destruct (p x) eqn:E; [|done]. eauto.
  - intros H. destruct (IHa _ _ _ H) as (s1 & H1 & H2).
    destruct (IHb _ _ _ H2) as (s2 & H3 & H4). eauto.
  - destruct (rmatch ci a k s) eqn:E.
    + intros [= ->]. destruct (IHa _ _ _ E) as (s' & ? & ?). eauto.
    + intros H. destruct (IHb _ _ _ H) as (s' & ? & ?). eauto.
  - intros H. destruct (star_sound _ _ _ _ _ _ H) as (s' & Hr & Hk).
    rewrite mstate_eta in Hr. eauto using reach_star_flag.
  - destruct (rmatch ci a k s) eqn:E.
    + intros [= ->]. destruct (IHa _ _ _ E) as (s' & ? & ?). eauto.
    + eauto.
  - intros H. destruct (IHa _ _ _ H) as (s' & ? & ?). eauto.
  - destruct (prev s) eqn:E; [done|]. eauto.
  - destruct (rest s) eqn:E; [|done]. eauto.
  - destruct (xorb _ _) eqn:E; [|done]. eauto.
Qed.

(** Completeness: if some reachable end state is accepted by the
    continuation, the matcher does not fail. *)
Lemma rmatch_complete ci r s s' :
  reach ci r s s' ->
  forall k, is_Some (k s') -> is_Some (rmatch ci r k s).
Proof.
  induction 1 as [s|c x t pv cs Hc|p x t pv cs Hp|a b s1 s2 s3 _ IH1 _ IH2
                  |a b s s' _ IH|a b s s' _ IH|p s|p x t pv cs s' Hp _ IH
                  |a s s' _ IH|a s|i a s s' _ IH|s Hb|s He|s Hw];
    intros k Hk; simpl.
  - done.
  - by rewrite Hc.
  - by rewrite Hp.
  - apply IH1, IH2, Hk.
  - destruct (IH _ Hk) as [res ->]. eauto.
  - destruct (rmatch ci a k s); [eauto|]. by apply IH.
  - destruct s as [pv [|x t] cs]; simpl; [done|].
    destruct (p x); [|done]. destruct (star p k (Some x) cs t); [eauto|done].
  - rewrite Hp. specialize (IH _ Hk). simpl in IH.
    destruct (star p k (Some x) cs t); [eauto|]. by destruct IH.
  - destruct (IH _ Hk) as [res ->]. eauto.
  - destruct (rmatch ci a k s); [eauto|done].
  - by apply IH.
  - by rewrite Hb.
  - by rewrite He.
  - by rewrite Hw.
Qed.

(** A match consumes a prefix of the remaining input. *)
Lemma reach_consumes ci r s s' :
  reach ci r s s' -> exists w, rest s = w ++ rest s'.
Proof.
  induction 1; simpl in *;
    try (by exists []);
    try (by exists [x]).
  - destruct IHreach1 as [w1 ->], IHreach2 as [w2 ->].
    exists (w1 ++ w2). by rewrite app_assoc.
  - done.
  - done.
  - destruct IHreach as [w ->]. by exists (x :: w).
  - done.
  - done.
Qed.

Lemma consumed_app (w l : jsstring) : consumed (w ++ l) l = w.
Proof.
  unfold consumed. rewrite length_app.
  replace (length w + length l - length l)%nat with (length w) by lia.
  by rewrite take_app_length.
Qed.

Lemma prevAfter_cons pv x l : prevAfter (Some x) l = prevAfter pv (x :: l).
Proof.
  unfold prevAfter. destruct l as [|y l]; [done|].
  rewrite last_cons_cons. destruct (last (y :: l)) eqn:E; [done|].
  by apply last_None in E.
Qed.

(** [execFrom] finds a match exactly when one exists at some start. *)
Lemma execFrom_Some ci r pv l m :
  execFrom ci r pv l = Some m ->
  exists l1 w l2 s',
    l = l1 ++ w ++ l2 /\
    reach ci r (MState (prevAfter pv l1) (w ++ l2) []) s' /\
    rest s' = l2 /\ m = MatchResult w (caps s').
Proof.
  revert pv. induction l as [|x t IH]; intros pv; simpl.
  - destruct (rmatch ci r Some (MState pv [] [])) as [s0|] eqn:E; [|done].
    intros [= <-]. apply rmatch_sound in E as (s' & Hr & [= ->]).
    destruct (reach_consumes _ _ _ _ Hr) as [w Hw]. simpl in Hw.
    symmetry in Hw. apply app_eq_nil in Hw as [-> Hm].
    exists [], [], [], s0. rewrite Hm. done.
  - destruct (rmatch ci r Some (MState pv (x :: t) [])) as [s0|] eqn:E.
    + intros [= <-]. apply rmatch_sound in E as (s' & Hr & [= ->]).
      destruct (reach_consumes _ _ _ _ Hr) as [w Hw]. simpl in Hw.
      exists [], w, (rest s0), s0. simpl. rewrite <- Hw.
      split_and!; try done. by rewrite Hw, consumed_app.
    + intros H. apply IH in H as (l1 & w & l2 & s' & -> & Hr & Hl & ->).
      exists (x :: l1), w, l2, s'. by rewrite <- prevAfter_cons.
Qed.

Lemma execFrom_is_Some ci r pv l1 l2 s' :
  reach ci r (MState (prevAfter pv l1) l2 []) s' ->
  is_Some (execFrom ci r pv (l1 ++ l2)).
Proof.
  revert pv. induction l1 as [|x t IH]; intros pv Hr.
  - simpl in *. assert (is_Some (rmatch ci r Some (MState pv l2 []))) as [m Hm]
      by (eapply rmatch_complete; eauto).
    destruct l2; simpl; rewrite Hm; eauto.
  - simpl. destruct (rmatch ci r Some (MState pv (x :: t ++ l2) [])); [eauto|].
    apply IH. by rewrite prevAfter_cons with (pv := pv).
Qed.

(** ** Inversion of [reach], constructor by constructor *)

Lemma advance_nil s : advance s [] (rest s) = s.
Proof. by destruct s. Qed.

Lemma prevAfter_app pv w1 w2 :
  prevAfter (prevAfter pv w1) w2 = prevAfter pv (w1 ++ w2).
Proof.
  revert pv. induction w1 as [|x w1 IH]; intros pv; [done|].
  simpl. rewrite <- !prevAfter_cons with (pv := pv). apply IH.
Qed.

Lemma advance_advance s w1 l1 w2 l2 :
  advance (advance s w1 l1) w2 l2 = advance s (w1 ++ w2) l2.
Proof. unfold advance. simpl. by rewrite prevAfter_app. Qed.

Lemma reach_seq_inv ci a b s s' :
  reach ci (RSeq a b) s s' <-> exists s1, reach ci a s s1 /\ reach ci b s1 s'.
Proof.
  split.
  - inversion 1; subst. eauto.
  - intros (s1 & ? & ?). eauto.
Qed.

Lemma reach_eps_inv ci s s' : reach ci REps s s' <-> s' = s.
Proof. split; [by inversion 1|intros ->; auto]. Qed.

Lemma reach_char_inv ci c s s' :
  reach ci (RChar c) s s' <->
  exists x t, rest s = x :: t /\ chEq ci c x = true /\ s' = advance s [x] t.
Proof.
  split.
  - inversion 1; subst. by exists x, t.
  - intros (x & t & Hr & Hc & ->). destruct s as [pv l cs]. simpl in Hr.
    subst l. by constructor.
Qed.

Lemma reach_class_inv ci p s s' :
  reach ci (RClass p) s s' <->
  exists x t, rest s = x :: t /\ p x = true /\ s' = advance s [x] t.
Proof.
  split.
  - inversion 1; subst. by exists x, t.
  - intros (x & t & Hr & Hc & ->). destruct s as [pv l cs]. simpl in Hr.
    subst l. by constructor.
Qed.

Lemma reach_star_inv ci p s s' :
  reach ci (RStar p) s s' <->
  exists w l, rest s = w ++ l /\ allOf p w /\ s' = advance s w l.
Proof.
  split.
  - intros H. remember (RStar p) as r eqn:Er.
    induction H; inversion Er; subst.
    + exists [], (rest s). rewrite advance_nil. split_and!; [done|constructor|done].
    + destruct (IHreach eq_refl) as (w & l & Hr & Hw & ->). simpl in Hr.
      exists (x :: w), l. subst t. split_and!; [done|by constructor|].
      unfold advance. simpl. by rewrite prevAfter_cons with (pv := pv).
  - intros (w & l & Hr & Hw & ->). destruct s as [pv l0 cs]. simpl in Hr.
    subst l0. revert pv. induction Hw as [|x w Hx Hw IH]; intros pv.
    + apply reach_star_stop.
    + simpl. apply reach_star_more; [done|].
      specialize (IH (Some x)). unfold advance in *. simpl in *.
      by rewrite <- prevAfter_cons with (pv := pv).
Qed.

Lemma reach_plus_inv ci p s s' :
  reach ci (RPlus p) s s' <->
  exists w l, rest s = w ++ l /\ w <> [] /\ allOf p w /\ s' = advance s w l.
Proof.
  unfold RPlus. rewrite reach_seq_inv. split.
  - intros (s1 & H1 & H2). apply reach_class_inv in H1 as (x & t & Hr & Hx & ->).
    apply reach_star_inv in H2 as (w & l & Hr2 & Hw & ->). simpl in Hr2.
    exists (x :: w), l. rewrite Hr, Hr2, advance_advance.
    split_and!; [done|done|by constructor|done].
  - intros (w & l & Hr & Hne & Hw & ->). destruct w as [|x w]; [done|].
    inversion Hw; subst. exists (advance s [x] (w ++ l)). split.
    + apply reach_class_inv. by exists x, (w ++ l).
    + apply reach_star_inv. exists w, l. by rewrite advance_advance.
Qed.

Lemma reach_alt_inv ci a b s s' :
  reach ci (RAlt a b) s s' <-> reach ci a s s' \/ reach ci b s s'.
Proof. split; [inversion 1; subst; auto|intros [?|?]; auto]. Qed.

Lemma reach_opt_inv ci a s s' :
  reach ci (ROpt a) s s' <-> reach ci a s s' \/ s' = s.
Proof. split; [inversion 1; subst; auto|intros [?| ->]; auto]. Qed.

Lemma reach_group_inv ci i a s s' :
  reach ci (RGroup i a) s s' <->
  exists s1, reach ci a s s1 /\
    s' = MState (prev s1) (rest s1) ((i, consumed (rest s) (rest s1)) :: caps s1).
Proof.
  split.
  - inversion 1; subst. eauto.
  - intros (s1 & ? & ->). auto.
Qed.

Lemma reach_bol_inv ci s s' : reach ci RBol s s' <-> prev s = None /\ s' = s.
Proof. split; [by inversion 1|intros [? ->]; auto]. Qed.

Lemma reach_eol_inv ci s s' : reach ci REol s s' <-> rest s = [] /\ s' = s.
Proof. split; [by inversion 1|intros [? ->]; auto]. Qed.

Lemma reach_wordb_inv ci s s' :
  reach ci RWordB s s' <->
  xorb (isWordOpt (prev s)) (isWordOpt (head (rest s))) = true /\ s' = s.
Proof. split; [by inversion 1|intros [? ->]; auto]. Qed.

Lemma reach_rstr_inv ci w s s' :
  reach ci (rstr w) s s' <->
  exists w' l, rest s = w' ++ l /\ sameText ci w w' /\ s' = advance s w' l.
Proof.
  revert s. induction w as [|c w IH]; intros s; simpl.
  - rewrite reach_eps_inv. split.
    + intros ->. exists [], (rest s). rewrite advance_nil.
      split_and!; [done|constructor|done].
    + intros (w' & l & Hr & Hw & ->). inversion Hw; subst. simpl in Hr.
      subst l. by rewrite advance_nil.
  - rewrite reach_seq_inv. split.
    + intros (s1 & H1 & H2). apply reach_char_inv in H1 as (x & t & Hr & Hx & ->).
      apply IH in H2 as (w' & l & Hr2 & Hw & ->). simpl in Hr2.
      exists (x :: w'), l. rewrite Hr, Hr2, advance_advance.
      split_and!; [done|by constructor|done].
    + intros (w' & l & Hr & Hw & ->). inversion Hw as [|? x ? w2 Hx Hw2]; subst.
      exists (advance s [x] (w2 ++ l)). split.
      * apply reach_char_inv. by exists x, (w2 ++ l).
      * apply IH. exists w2, l. by rewrite advance_advance.
Qed.

Lemma sameText_exact w w' : sameText false w w' <-> w' = w.
Proof.
  split.
  - induction 1 as [|c x w w' Hc _ IH]; [done|].
    unfold chEq in Hc. apply N.eqb_eq in Hc. by subst.
  - intros ->. induction w; constructor; [|done].
    unfold chEq. apply N.eqb_refl.
Qed.

Lemma sameText_canon w w' :
  sameText true w w' <-> List.map canon w' = List.map canon w.
Proof.
  split.
  - induction 1 as [|c x w w' Hc _ IH]; [done|].
    unfold chEq in Hc. apply N.eqb_eq in Hc. simpl. by rewrite Hc, IH.
  - revert w'. induction w as [|c w IH]; intros [|x w'] H; try done.
    + constructor.
    + simpl in H. injection H as Hc Hw. constructor; [|by apply IH].
      unfold chEq. by apply N.eqb_eq.
Qed.

(** ** The cycle prefix *)

Lemma prevAfter_None l : prevAfter None l = None -> l = [].
Proof.
  unfold prevAfter. destruct (last l) eqn:E; [done|]. intros _.
  by apply last_None.
Qed.

Ltac cursor := cbn [rest prev caps advance] in *.

Lemma cycleRe_match_inv T m :
  js_match cycleRe T = Some m ->
  exists num tail,
    isCyclePrefix (whole m) num /\ T = whole m ++ tail /\
    group 1 m = Some num.
Proof.
  unfold js_match, cycleRe. cbn [pattern ignoreCase]. intros H.
  apply execFrom_Some in H as (l1 & w & l2 & s' & -> & Hr & Hl & ->).
  apply reach_seq_inv in Hr as (s1 & H1 & Hr).
  apply reach_bol_inv in H1 as [Hp ->]. cursor.
  apply prevAfter_None in Hp as ->.
  apply reach_seq_inv in Hr as (s2 & H2 & Hr).
  apply reach_rstr_inv in H2 as (w1 & r1 & Hr1 & Hw1 & ->).
  apply sameText_exact in Hw1 as ->. cursor.
  apply reach_seq_inv in Hr as (s3 & H3 & Hr).
  apply reach_plus_inv in H3 as (w2 & r2 & Hr2 & Hne2 & Hw2 & ->). cursor.
  apply reach_seq_inv in Hr as (s4 & H4 & Hr).
  apply reach_group_inv in H4 as (s4' & H4 & ->).
  apply reach_plus_inv in H4 as (w3 & r3 & Hr3 & Hne3 & Hw3 & ->). cursor.
  apply reach_seq_inv in Hr as (s5 & H5 & Hr).
  apply reach_char_inv in Hr as (x & t & Hrx & Hx & ->). cursor.
  apply N.eqb_eq in Hx. subst x t.
  exists w3, l2. cbn [whole group groups lookupGroup Nat.eqb app].
  rewrite Hr3, consumed_app in H5.
  apply reach_opt_inv in H5 as [H5| ->].
  - apply reach_seq_inv in H5 as (s6 & H6 & H7).
    apply reach_char_inv in H6 as (y & t & Hry & Hy & ->).
    apply N.eqb_eq in Hy. subst y. cursor.
    apply reach_plus_inv in H7 as (w4 & r4 & Hr4 & Hne4 & Hw4 & ->).
    cursor. subst. split_and!; [|done|done].
    assert (w = lit "Cycle" ++ w2 ++ w3 ++ (ch "-" :: w4) ++ [ch ":"]) as ->.
    { apply (app_inv_tail l2). rewrite Hr1. by rewrite <- !app_assoc. }
    exists w2, (ch "-" :: w4). split_and!; try done. right. by exists w4.
  - cursor. subst. split_and!; [|done|done].
    assert (w = lit "Cycle" ++ w2 ++ w3 ++ [] ++ [ch ":"]) as ->.
    { apply (app_inv_tail l2). rewrite Hr1. by rewrite <- !app_assoc. }
    exists w2, []. split_and!; try done. by left.
Qed.

Lemma cycleRe_match_intro T :
  cyclePrefix T -> is_Some (js_match cycleRe T).
Proof.
  intros (pre & num & tail & (w & r & -> & Hne & Hw & Hnn & Hn & Hr) & ->).
  unfold js_match, cycleRe. cbn [pattern ignoreCase].
  set (s0 := MState None ((lit "Cycle" ++ w ++ num ++ r ++ [ch ":"]) ++ tail) []).
  set (s3 := advance (advance (advance s0 (lit "Cycle")
                 (w ++ num ++ r ++ [ch ":"] ++ tail)) w
                 (num ++ r ++ [ch ":"] ++ tail)) num (r ++ [ch ":"] ++ tail)).
  set (s4 := MState (prev s3) (rest s3) [(1%nat, num)]).
  assert (exists s5, reach false (ROpt (RChar (ch "-") >> RPlus isDigit)) s4 s5
                     /\ rest s5 = ch ":" :: tail) as (s5 & H5 & Hr5).
  { destruct Hr as [->|(d2 & -> & Hne2 & Hd2)].
    - exists s4. split; [apply reach_opt_skip|done].
    - exists (advance (advance s4 [ch "-"] (d2 ++ [ch ":"] ++ tail)) d2
                (ch ":" :: tail)).
      split; [|done]. apply reach_opt_take, reach_seq_inv. eexists. split.
      + apply reach_char_inv. eexists _, _. split_and!; [done| |done].
        apply N.eqb_refl.
      + apply reach_plus_inv. eexists _, _. split_and!; try done. }
  apply (execFrom_is_Some false _ None [] _ (advance s5 [ch ":"] tail)).
  apply reach_seq_inv. exists s0. split; [by apply reach_bol_inv|].
  apply reach_seq_inv. eexists. split.
  { apply reach_rstr_inv. eexists _, _. split_and!; [|by apply sameText_exact|done].
    subst s0. cbn [rest]. by rewrite <- !app_assoc. }
  apply reach_seq_inv. eexists. split.
  { apply reach_plus_inv. eexists _, _. split_and!; try done. }
  apply reach_seq_inv. exists s4. split.
  { apply reach_group_inv. exists s3. split.
    - apply reach_plus_inv. eexists _, _. split_and!; try done.
    - subst s4 s3. cursor. by rewrite consumed_app. }
  apply reach_seq_inv. exists s5. split; [done|].
  apply reach_char_inv. eexists _, _. split_and!; [done| |done]. apply N.eqb_refl.
Qed.

Lemma cycleRe_spec T : is_Some (js_match cycleRe T) <-> cyclePrefix T.
Proof.
  split.
  - intros [m Hm]. apply cycleRe_match_inv in Hm as (num & tail & H & Ht & _).
    by exists (whole m), num, tail.
  - apply cycleRe_match_intro.
Qed.

(** ** First line and prefix *)

Lemma split_nonempty sep s : split sep s <> [].
Proof.
  destruct s as [|c t]; simpl; [done|].
  destruct (c =? sep); [done|]. by destruct (split sep t).
Qed.

Lemma firstLine_prefix msg : exists tail, msg = firstLine msg ++ tail.
Proof.
  unfold firstLine. induction msg as [|c t [tail IH]]; simpl.
  - by exists [].
  - destruct (c =? 10); simpl; [by exists (c :: t)|].
    destruct (split 10 t) as [|h r] eqn:E; [by apply split_nonempty in E|].
    simpl in *. exists tail. by rewrite IH at 1.
Qed.

Lemma cyclePrefix_app T tail : cyclePrefix T -> cyclePrefix (T ++ tail).
Proof.
  intros (pre & num & tl & Hp & ->).
  exists pre, num, (tl ++ tail). by rewrite <- (app_assoc pre tl tail).
Qed.

Lemma cyclePrefix_firstLine msg : cyclePrefix (firstLine msg) -> cyclePrefix msg.
Proof.
  intros H. destruct (firstLine_prefix msg) as [tail Ht]. rewrite Ht.
  by apply cyclePrefix_app.
Qed.

(** ** Words between word boundaries *)

Ltac nbool :=
  repeat match goal with
         | H : context [(?a <=? ?b)%N] |- _ => destruct (N.leb_spec a b)
         | H : context [(?a =? ?b)%N] |- _ => destruct (N.eqb_spec a b)
         | |- context [(?a <=? ?b)%N] => destruct (N.leb_spec a b)
         | |- context [(?a =? ?b)%N] => destruct (N.eqb_spec a b)
         end;
  simpl in *; try done; try lia.

Lemma canon_wordChar c x :
  isWordChar c = true -> canon x = canon c -> isWordChar x = true.
Proof.
  unfold isWordChar, canon, isLower, isUpper, isDigit. intros Hc Hx. nbool.
Qed.

Lemma sameCase_wordChars w mid :
  List.map canon mid = List.map canon w ->
  allOf isWordChar w -> allOf isWordChar mid.
Proof.
  revert w. induction mid as [|x mid IH]; intros [|c w] H Hw; try done.
  simpl in H. injection H as Hx Hm. inversion Hw; subst.
  constructor; [by eapply canon_wordChar|by eapply IH].
Qed.

Lemma prevAfter_last l : prevAfter None l = last l.
Proof. unfold prevAfter. by destruct (last l). Qed.

Lemma prevAfter_wordChars pv w :
  w <> [] -> allOf isWordChar w -> isWordOpt (prevAfter pv w) = true.
Proof.
  intros Hne Hw. unfold prevAfter. destruct (last w) as [x|] eqn:E.
  - simpl. apply last_Some in E as [l' ->].
    apply Forall_app in Hw as [_ Hx]. by inversion Hx.
  - by apply last_None in E.
Qed.

Lemma head_wordChars w l :
  w <> [] -> allOf isWordChar w -> isWordOpt (head (w ++ l)) = true.
Proof. intros Hne Hw. destruct w as [|x w]; [done|]. by inversion Hw. Qed.

Section WordPattern.

(** A pattern [X] that matches the non-empty words satisfying [P]. *)
Variable X : regex.
Variable P : jsstring -> Prop.

Hypothesis X_sound : forall s s',
  reach true X s s' ->
  exists w l, rest s = w ++ l /\ P w /\
              prev s' = prevAfter (prev s) w /\ rest s' = l.

Hypothesis X_complete : forall s w l,
  rest s = w ++ l -> P w ->
  exists s', reach true X s s' /\
             prev s' = prevAfter (prev s) w /\ rest s' = l.

Hypothesis P_word : forall w, P w -> w <> [] /\ allOf isWordChar w.

(** [\bX\b] finds a match exactly when the subject has an occurrence of
    such a word between two word boundaries. *)
Lemma wordPattern_spec pv body :
  is_Some (execFrom true (RWordB >> X >> RWordB) pv body) <->
  exists pre mid post,
    body = pre ++ mid ++ post /\ P mid /\
    isWordOpt (prevAfter pv pre) = false /\ isWordOpt (head post) = false.
Proof.
  split.
  - intros [m Hm].
    apply execFrom_Some in Hm as (l1 & w & l2 & s' & -> & Hr & Hl & _).
    apply reach_seq_inv in Hr as (s1 & H1 & Hr).
    apply reach_wordb_inv in H1 as [Hb1 ->].
    apply reach_seq_inv in Hr as (s2 & H2 & Hr).
    apply reach_wordb_inv in Hr as [Hb2 ->].
    apply X_sound in H2 as (mid & l & Hrest & HP & Hprev & Hl2).
    cbn [rest prev] in *. rewrite Hl in Hl2. subst l.
    apply app_inv_tail in Hrest as ->.
    destruct (P_word _ HP) as [Hne Hw].
    rewrite head_wordChars in Hb1 by done.
    rewrite Hprev, Hl, prevAfter_wordChars in Hb2 by done.
    exists l1, mid, l2. split_and!; [done|done| |].
    + by destruct (isWordOpt (prevAfter pv l1)).
    + by destruct (isWordOpt (head l2)).
  - intros (pre & mid & post & -> & HP & Hb1 & Hb2).
    destruct (P_word _ HP) as [Hne Hw].
    destruct (X_complete (MState (prevAfter pv pre) (mid ++ post) []) mid post)
      as (s' & Hr & Hprev & Hrest); [done|done|].
    apply (execFrom_is_Some true _ pv pre _ s').
    apply reach_seq_inv. eexists. split.
    { apply reach_wordb_inv. split; [|done]. cbn [rest prev].
      by rewrite Hb1, head_wordChars. }
    apply reach_seq_inv. exists s'. split; [done|].
    apply reach_wordb_inv. split; [|done].
    cbn [rest prev] in *. by rewrite Hprev, Hrest, Hb2, prevAfter_wordChars.
Qed.

End WordPattern.

(** The literal pattern of a word, under the [i] flag. *)
Lemma rstr_word_sound w s s' :
  reach true (rstr w) s s' ->
  exists w' l, rest s = w' ++ l /\ List.map canon w' = List.map canon w /\
               prev s' = prevAfter (prev s) w' /\ rest s' = l.
Proof.
  intros H. apply reach_rstr_inv in H as (w' & l & Hr & Hw & ->).
  exists w', l. by rewrite <- sameText_canon.
Qed.

Lemma rstr_word_complete w s w' l :
  rest s = w' ++ l -> List.map canon w' = List.map canon w ->
  exists s', reach true (rstr w) s s' /\
             prev s' = prevAfter (prev s) w' /\ rest s' = l.
Proof.
  intros Hr Hw. exists (advance s w' l). split; [|done].
  apply reach_rstr_inv. exists w', l. by rewrite sameText_canon.
Qed.

Lemma sameCase_word w mid :
  w <> [] -> allOf isWordChar w ->
  List.map canon mid = List.map canon w ->
  mid <> [] /\ allOf isWordChar mid.
Proof.
  intros Hne Hw Hm. split; [|by eapply sameCase_wordChars].
  intros ->. by destruct w.
Qed.

Lemma test_is_Some re s : test re s = true <-> is_Some (js_match re s).
Proof.
  unfold test. destruct (js_match re s).
  - split; [eauto|done].
  - split; [done|by intros [? ?]].
Qed.

Lemma idleRe_spec body :
  test idleRe body = true <-> containsWord (lit "idle") body.
Proof.
  rewrite test_is_Some. unfold js_match, idleRe. cbn [pattern ignoreCase].
  rewrite (wordPattern_spec _ (fun m => List.map canon m = List.map canon (lit "idle"))).
  - unfold containsWord. by setoid_rewrite prevAfter_last.
  - apply rstr_word_sound.
  - apply rstr_word_complete.
  - intros w. apply sameCase_word; [done|].
    repeat constructor.
Qed.

Lemma errorWords_sound s s' :
  reach true errorWords s s' ->
  exists w l, rest s = w ++ l /\ isErrorWord w /\
              prev s' = prevAfter (prev s) w /\ rest s' = l.
Proof.
  unfold errorWords, isErrorWord. intros H.
  apply reach_group_inv in H as (s1 & H & ->). cbn [prev rest].
  apply reach_alt_inv in H as [H|H]; [|apply reach_alt_inv in H as [H|H]];
    apply rstr_word_sound in H as (w & l & ? & ? & ? & ?);
    exists w, l; tauto.
Qed.

Lemma errorWords_complete s w l :
  rest s = w ++ l -> isErrorWord w ->
  exists s', reach true errorWords s s' /\
             prev s' = prevAfter (prev s) w /\ rest s' = l.
Proof.
  unfold errorWords, isErrorWord. intros Hr Hw.
  assert (exists s1, reach true (RAlt (rstr (lit "fail"))
                       (RAlt (rstr (lit "error")) (rstr (lit "blocked")))) s s1
                     /\ prev s1 = prevAfter (prev s) w /\ rest s1 = l)
    as (s1 & H & Hp & Hl).
  { destruct Hw as [Hw|[Hw|Hw]];
      destruct (rstr_word_complete _ s w l Hr Hw) as (s1 & ? & ? & ?);
      exists s1; split_and!; auto using reach_alt_l, reach_alt_r. }
  eexists. split; [apply reach_group_inv; by exists s1|done].
Qed.

Lemma errorRe_spec body :
  test errorRe body = true <->
  containsWord (lit "fail") body \/ containsWord (lit "error") body
  \/ containsWord (lit "blocked") body.
Proof.
  rewrite test_is_Some. unfold js_match, errorRe. cbn [pattern ignoreCase].
  rewrite (wordPattern_spec _ isErrorWord).
  - unfold containsWord, isErrorWord. setoid_rewrite prevAfter_last. split.
    + intros (pre & mid & post & -> & [H|[H|H]] & Hb1 & Hb2);
        [left|right; left|right; right]; by exists pre, mid, post.
    + intros [H|[H|H]]; destruct H as (pre & mid & post & -> & H & Hb1 & Hb2);
        exists pre, mid, post; split_and!; auto.
  - apply errorWords_sound.
  - apply errorWords_complete.
  - intros w [H|[H|H]]; revert H; (apply sameCase_word; [done|repeat constructor]).
Qed.

(** ** The cycle prefix of a message is unique *)

Lemma run_unique p w a w' a' :
  allOf p w -> allOf p w' -> stops p a -> stops p a' ->
  w ++ a = w' ++ a' -> w = w' /\ a = a'.
Proof.
  intros Hw. revert w'. induction Hw as [|x w Hx Hw IH]; intros w' Hw' Ha Ha' E.
  - destruct Hw' as [|y w' Hy Hw']; [done|].
    simpl in E. subst a. simpl in Ha. congruence.
  - destruct Hw' as [|y w' Hy Hw'].
    + simpl in E. subst a'. simpl in Ha'. congruence.
    + simpl in E. injection E as -> E.
      destruct (IH w' Hw' Ha Ha' E) as [-> ->]. done.
Qed.

Lemma digit_not_space x : isDigit x = true -> isWhiteSpace x = false.
Proof. unfold isDigit, isWhiteSpace. intros H. nbool. Qed.

Lemma stops_digits num a :
  num <> [] -> allOf isDigit num -> stops isWhiteSpace (num ++ a).
Proof.
  intros Hne Hn. destruct Hn as [|x num Hx _]; [done|].
  simpl. by apply digit_not_space.
Qed.

(** What may follow the digits of a cycle number. *)
Lemma stops_range r tail :
  (r = [] \/ exists d2, r = ch "-" :: d2 /\ d2 <> [] /\ allOf isDigit d2) ->
  stops isDigit (r ++ [ch ":"] ++ tail).
Proof. by intros [->|(d2 & -> & _)]. Qed.

Lemma isCyclePrefix_unique pre num tail pre' num' tail' :
  isCyclePrefix pre num -> isCyclePrefix pre' num' ->
  pre ++ tail = pre' ++ tail' ->
  pre = pre' /\ num = num' /\ tail = tail'.
Proof.
  intros (w & r & -> & Hne & Hw & Hnn & Hn & Hr)
         (w' & r' & -> & Hne' & Hw' & Hnn' & Hn' & Hr') E.
  rewrite <- !app_assoc in E. apply app_inv_head in E.
  apply run_unique with (p := isWhiteSpace) in E as [<- E];
    [|done|done|by apply stops_digits|by apply stops_digits].
  apply run_unique with (p := isDigit) in E as [<- E];
    [|done|done|by apply stops_range|by apply stops_range].
  destruct Hr as [->|(d & -> & Hd & Had)], Hr' as [->|(d' & -> & Hd' & Had')];
    simpl in E.
  - by injection E as <-.
  - discriminate E.
  - discriminate E.
  - injection E as E.
    apply run_unique with (p := isDigit) in E as [<- E]; [|done..].
    by injection E as <-.
Qed.

(** The body the parser works on, in terms of the prefix. *)
Lemma bodyOf_tail pre tail m :
  whole m = pre -> bodyOf (pre ++ tail) m = trim tail.
Proof.
  intros <-. unfold bodyOf, sliceFrom. by rewrite drop_app_length.
Qed.

Lemma classify_not_manual body : classify body <> manual.
Proof.
  unfold classify. by destruct (test idleRe body), (test errorRe body).
Qed.

Lemma classify_spec body :
  (containsWord (lit "idle") body -> classify body = idle) /\
  (~ containsWord (lit "idle") body -> hasErrorWord body ->
   classify body = error) /\
  (~ containsWord (lit "idle") body -> ~ hasErrorWord body ->
   classify body = active).
Proof.
  unfold classify, hasErrorWord. rewrite <- idleRe_spec, <- errorRe_spec.
  destruct (test idleRe body), (test errorRe body); split_and!; try done.
  all: intros H1 H2; by destruct H1 || by destruct H2.
Qed.

Lemma status_of_match msg ts m tail :
  js_match cycleRe msg = Some m -> msg = whole m ++ tail ->
  status (parseCommit msg ts) = classify (trim tail).
Proof.
  intros Hm Ht. unfold parseCommit. rewrite Hm. cbn [status].
  rewrite Ht. by rewrite bodyOf_tail.
Qed.

(** * The parser *)

(** C1. A message that does not match the cycle prefix
    "Cycle <integer>[-<integer>]:" at its start is parsed as a manual
    record: status [manual], the first line as only event, no cycle
    number and no heartbeat, balance or balance delta. *)
Theorem parseCommit_manual_record (T ts : jsstring) :
  ~ cyclePrefix T ->
  parseCommit T ts =
  mkCycleEntry None manual (firstLine T) ts None None None [firstLine T].
Proof.
  intros H. unfold parseCommit.
  destruct (js_match cycleRe T) as [m|] eqn:E; [|done].
  destruct H. apply cycleRe_spec. eauto.
Qed.

(** A commit that is not a cycle report, whatever its text holds. *)
Lemma parseCommit_manual_record_witness :
  ~ cyclePrefix (lit "Loop adoption: heartbeat #4, balance 900 sats") /\
  parseCommit (lit "Loop adoption: heartbeat #4, balance 900 sats")
    (lit "2026-02-14T09:30:00Z") =
  mkCycleEntry None manual
    (lit "Loop adoption: heartbeat #4, balance 900 sats")
    (lit "2026-02-14T09:30:00Z") None None None
    [lit "Loop adoption: heartbeat #4, balance 900 sats"].
Proof.
  assert (H : ~ cyclePrefix (lit "Loop adoption: heartbeat #4, balance 900 sats")).
  { rewrite <- cycleRe_spec. vm_compute. by intros [? ?]. }
  split; [exact H|].
  exact (parseCommit_manual_record _ (lit "2026-02-14T09:30:00Z") H).
Defined.

(** C2, as stated, fails: the pattern is matched against the whole
    message and its white space may be a line break, so a message can be
    a cycle record although its first line alone is not a cycle prefix. *)
Lemma parseCommit_headline_counterexample :
  ~ ((is_Some (cycle (parseCommit (lit "Cycle" ++ [10] ++ lit "5: x") (lit "2026-02-14T09:30:00Z")))
      <-> status (parseCommit (lit "Cycle" ++ [10] ++ lit "5: x") (lit "2026-02-14T09:30:00Z")) <> manual)
     /\
     (status (parseCommit (lit "Cycle" ++ [10] ++ lit "5: x") (lit "2026-02-14T09:30:00Z")) = manual
      <-> ~ cyclePrefix (firstLine (lit "Cycle" ++ [10] ++ lit "5: x")))).
Proof.
  intros [_ [_ H]].
  assert (Hm : status (parseCommit (lit "Cycle" ++ [10] ++ lit "5: x") (lit "2026-02-14T09:30:00Z"))
               = manual); [|by vm_compute in Hm].
  apply H. rewrite <- cycleRe_spec. vm_compute. by intros [? ?].
Qed.

(** C2, amended.  The cycle number is present exactly when the status is
    not [manual]; the status is [manual] exactly when the message, read
    from its start, does not match the cycle prefix; and a [manual]
    status implies that the first line does not match it either. *)
Theorem parseCommit_cycle_iff_not_manual (msg ts : jsstring) :
  (is_Some (cycle (parseCommit msg ts)) <-> status (parseCommit msg ts) <> manual)
  /\ (status (parseCommit msg ts) = manual <-> ~ cyclePrefix msg)
  /\ (status (parseCommit msg ts) = manual -> ~ cyclePrefix (firstLine msg)).
Proof.
  assert (Hs : status (parseCommit msg ts) = manual <-> ~ cyclePrefix msg).
  { rewrite <- cycleRe_spec. unfold parseCommit.
    destruct (js_match cycleRe msg) as [m|] eqn:E; simpl.
    - split; [by intros H%classify_not_manual|]. intros []. eauto.
    - split; [|done]. by intros _ [? ?]. }
  split_and!; [|done|].
  - rewrite Hs, <- cycleRe_spec. unfold parseCommit.
    destruct (js_match cycleRe msg) as [m|] eqn:E; simpl.
    + split; [|eauto]. intros _ []. eauto.
    + split; [by intros [? ?]|]. intros []. by intros [? ?].
  - intros H Hl. apply Hs in H. by apply H, cyclePrefix_firstLine.
Qed.

(** C3. When the first line of the message matches the cycle prefix, the
    message splits in exactly one way into a cycle prefix and a
    remainder, the body is the trimmed remainder, and the status follows
    the cascade: [idle] if the body contains the word "idle"; otherwise
    [error] if it contains "fail", "error" or "blocked"; otherwise
    [active].  A body with both "idle" and an error word is [idle]. *)
Theorem parseCommit_status_cascade (msg ts : jsstring) :
  cyclePrefix (firstLine msg) ->
  exists pre num tail,
    isCyclePrefix pre num /\ msg = pre ++ tail /\
    (forall pre' num' tail',
        isCyclePrefix pre' num' -> msg = pre' ++ tail' ->
        pre' = pre /\ tail' = tail) /\
    (containsWord (lit "idle") (trim tail) ->
     status (parseCommit msg ts) = idle) /\
    (~ containsWord (lit "idle") (trim tail) -> hasErrorWord (trim tail) ->
     status (parseCommit msg ts) = error) /\
    (~ containsWord (lit "idle") (trim tail) -> ~ hasErrorWord (trim tail) ->
     status (parseCommit msg ts) = active) /\
    (containsWord (lit "idle") (trim tail) /\ hasErrorWord (trim tail) ->
     status (parseCommit msg ts) = idle).
Proof.
  intros H%cyclePrefix_firstLine%cycleRe_spec. destruct H as [m Hm].
  destruct (cycleRe_match_inv _ _ Hm) as (num & tail & Hp & Ht & _).
  exists (whole m), num, tail. split_and!; [done|done| |..].
  - intros pre' num' tail' Hp' Ht'. rewrite Ht in Ht'.
    destruct (isCyclePrefix_unique _ _ _ _ _ _ Hp Hp' Ht') as (? & ? & ?).
    by subst.
  - rewrite (status_of_match _ ts _ _ Hm Ht). apply classify_spec.
  - rewrite (status_of_match _ ts _ _ Hm Ht). apply classify_spec.
  - rewrite (status_of_match _ ts _ _ Hm Ht). apply classify_spec.
  - rewrite (status_of_match _ ts _ _ Hm Ht). intros [Hi _]. revert Hi.
    apply classify_spec.
Qed.

(** A range headline whose body has both "Idle" and "blocked". *)
Lemma parseCommit_status_cascade_witness :
  cyclePrefix (firstLine (lit "Cycle 12-13: Idle, deploy blocked")) /\
  exists pre num tail,
    isCyclePrefix pre num /\
    lit "Cycle 12-13: Idle, deploy blocked" = pre ++ tail /\
    (forall pre' num' tail',
        isCyclePrefix pre' num' ->
        lit "Cycle 12-13: Idle, deploy blocked" = pre' ++ tail' ->
        pre' = pre /\ tail' = tail) /\
    (containsWord (lit "idle") (trim tail) ->
     status (parseCommit (lit "Cycle 12-13: Idle, deploy blocked") (lit "2026-02-14T09:30:00Z")) = idle) /\
    (~ containsWord (lit "idle") (trim tail) -> hasErrorWord (trim tail) ->
     status (parseCommit (lit "Cycle 12-13: Idle, deploy blocked") (lit "2026-02-14T09:30:00Z")) = error) /\
    (~ containsWord (lit "idle") (trim tail) -> ~ hasErrorWord (trim tail) ->
     status (parseCommit (lit "Cycle 12-13: Idle, deploy blocked") (lit "2026-02-14T09:30:00Z")) = active) /\
    (containsWord (lit "idle") (trim tail) /\ hasErrorWord (trim tail) ->
     status (parseCommit (lit "Cycle 12-13: Idle, deploy blocked") (lit "2026-02-14T09:30:00Z")) = idle).
Proof.
  assert (H : cyclePrefix (firstLine (lit "Cycle 12-13: Idle, deploy blocked"))).
  { rewrite <- cycleRe_spec. vm_compute. eauto. }
  split; [exact H|].
  exact (parseCommit_status_cascade _ (lit "2026-02-14T09:30:00Z") H).
Defined.

(** C4 fails on the code: the balance pattern accepts a run of commas
    with no digit, and [parseInt] of the stripped (empty) text is [NaN],
    which is stored as a present balance. *)
Theorem parseCommit_balance_NaN (ts : jsstring) :
  balance (parseCommit (lit "Cycle 1: balance , sats") ts) = Some NaN.
Proof. reflexivity. Qed.

(** ** The delta pattern *)

Lemma deltaRe_spec body :
  is_Some (js_match deltaRe body) <-> hasParenDelta body.
Proof.
  unfold js_match, deltaRe, digit. cbn [pattern ignoreCase]. split.
  - intros [m Hm].
    apply execFrom_Some in Hm as (l1 & w & l2 & s' & -> & Hr & Hl & _).
    apply reach_seq_inv in Hr as (s1 & H1 & Hr).
    apply reach_char_inv in H1 as (x & t & Hx & Hxe & ->). cursor.
    apply N.eqb_eq in Hxe. subst x.
    apply reach_seq_inv in Hr as (s2 & H2 & Hr).
    apply reach_group_inv in H2 as (s3 & H2 & ->).
    apply reach_seq_inv in H2 as (s4 & H4 & H2).
    apply reach_class_inv in H4 as (sg & t4 & Hsg & Hsgp & ->). cursor.
    apply reach_seq_inv in H2 as (s5 & H5 & H2).
    apply reach_class_inv in H5 as (d & t5 & Hd & Hdp & ->). cursor.
    apply reach_star_inv in H2 as (ds & t6 & Hds & Hdsp & ->). cursor.
    apply reach_char_inv in Hr as (y & t7 & Hy & Hye & ->). cursor.
    apply N.eqb_eq in Hye. subst. exists l1, sg, d, ds, l2.
    by rewrite Hx.
  - intros (pre & sg & d & ds & post & -> & Hsg & Hd & Hds).
    set (s0 := MState (prevAfter None pre)
                 (ch "(" :: sg :: d :: ds ++ ch ")" :: post) []).
    set (s1 := advance s0 [ch "("] (sg :: d :: ds ++ ch ")" :: post)).
    set (s3 := advance (advance (advance s1 [sg] (d :: ds ++ ch ")" :: post))
                          [d] (ds ++ ch ")" :: post)) ds (ch ")" :: post)).
    apply (execFrom_is_Some false _ None pre _
             (advance (MState (prev s3) (rest s3)
                         ((1%nat, consumed (rest s1) (rest s3)) :: caps s3))
                [ch ")"] post)).
    apply reach_seq_inv. exists s1. split.
    { apply reach_char_inv. eexists _, _. split_and!; [done| |done].
      apply N.eqb_refl. }
    apply reach_seq_inv. eexists. split.
    { apply reach_group_inv. exists s3. split; [|done].
      apply reach_seq_inv. eexists. split.
      { apply reach_class_inv. eexists _, _. split_and!; done. }
      apply reach_seq_inv. eexists. split.
      { apply reach_class_inv. eexists _, _. split_and!; done. }
      apply reach_star_inv. eexists _, _. split_and!; done. }
    apply reach_char_inv. eexists _, _. split_and!; [done| |done].
    apply N.eqb_refl.
Qed.

(** C9. Some cycle message is parsed with a balance delta and without a
    balance.  In general, for a message that begins with a cycle prefix,
    the delta is present exactly when the body contains a parenthesised
    signed number, whatever else the body holds. *)
Theorem parseCommit_delta_without_balance :
  (exists msg ts,
      cyclePrefix msg /\
      balanceDelta (parseCommit msg ts) = Some (Int 5) /\
      balance (parseCommit msg ts) = None) /\
  (forall msg ts pre num tail,
      isCyclePrefix pre num -> msg = pre ++ tail ->
      (is_Some (balanceDelta (parseCommit msg ts)) <-> hasParenDelta (trim tail))).
Proof.
  split.
  - exists (lit "Cycle 41: paid relay fee (+5)"), (lit "2026-02-14T09:30:00Z").
    split_and!; [|reflexivity..].
    rewrite <- cycleRe_spec. vm_compute. eauto.
  - intros msg ts pre num tail Hp Ht.
    assert (is_Some (js_match cycleRe msg)) as [m Hm].
    { apply cycleRe_spec. by exists pre, num, tail. }
    destruct (cycleRe_match_inv _ _ Hm) as (num' & tail' & Hp' & Ht' & _).
    assert (tail' = tail) as ->.
    { rewrite Ht in Ht'.
      by destruct (isCyclePrefix_unique _ _ _ _ _ _ Hp Hp' Ht') as (_ & _ & ->). }
    rewrite <- deltaRe_spec. unfold parseCommit. rewrite Hm. cbn [balanceDelta].
    rewrite Ht' at 1. rewrite bodyOf_tail by done.
    destruct (js_match deltaRe (trim tail)); split; intros [? ?]; eauto; done.
Qed.

(** ** Numbers read by the parser *)

(** *** Rounding to a double *)

(** Below 2^53 an integer is its own double. *)
Lemma roundDouble_safe z : (Z.abs z < 2 ^ 53)%Z -> roundDouble z = Int z.
Proof.
  intros H. unfold roundDouble.
  destruct (Z.leb_spec (Z.log2 (Z.abs z) - 52) 0) as [|He]; [done|].
  exfalso. destruct (Z.eq_dec (Z.abs z) 0%Z) as [E|E].
  - rewrite E in He. simpl in He. lia.
  - assert (Z.log2 (Z.abs z) < 53)%Z; [|lia].
    apply Z.log2_lt_pow2; lia.
Qed.

(** From 2^53 on the double is an infinity or an integer of the same
    sign, still at least 2^53 in magnitude. *)
Lemma roundDouble_large z :
  (2 ^ 53 <= Z.abs z)%Z ->
  roundDouble z = Inf (z <? 0)%Z \/
  exists m, (2 ^ 53 <= m)%Z /\ roundDouble z = Int (Z.sgn z * m).
Proof.
  intros H. unfold roundDouble.
  set (m := Z.abs z) in *. set (e := (Z.log2 m - 52)%Z).
  assert (0 < m)%Z as Hm by lia.
  assert (53 <= Z.log2 m)%Z as Hl by (by apply Z.log2_le_pow2).
  destruct (Z.leb_spec e 0) as [|He]; [lia|].
  match goal with |- context [if ?b then (_ + 1)%Z else _] => set (up := b) end.
  set (q' := if up then (m / 2 ^ e + 1)%Z else (m / 2 ^ e)%Z).
  destruct (Z.leb_spec overflowBound (q' * 2 ^ e)); [by left|right].
  exists (q' * 2 ^ e)%Z. split; [|done].
  assert (2 ^ 52 * 2 ^ e <= m)%Z as Hlow.
  { rewrite <- Z.pow_add_r by lia. replace (52 + e)%Z with (Z.log2 m) by lia.
    apply Z.log2_spec. lia. }
  assert (0 < 2 ^ e)%Z as Hp by (apply Z.pow_pos_nonneg; lia).
  assert (2 ^ 52 <= m / 2 ^ e)%Z as Hq.
  { apply Z.div_le_lower_bound; lia. }
  assert (m / 2 ^ e <= q')%Z as Hq' by (unfold q'; destruct up; lia).
  assert (2 <= 2 ^ e)%Z as H2.
  { change 2%Z with (2 ^ 1)%Z at 1. apply Z.pow_le_mono_r; lia. }
  change (2 ^ 53)%Z with (2 ^ 52 * 2)%Z.
  transitivity (2 ^ 52 * 2 ^ e)%Z; [lia|].
  apply Z.mul_le_mono_nonneg_r; lia.
Qed.

Lemma roundDouble_not_NaN z : roundDouble z <> NaN.
Proof.
  destruct (Z.lt_ge_cases (Z.abs z) (2 ^ 53)) as [H|H].
  - by rewrite roundDouble_safe.
  - by destruct (roundDouble_large z H) as [-> | (m & _ & ->)].
Qed.

Lemma roundDouble_nonNegative z : (0 <= z)%Z -> nonNegative (roundDouble z).
Proof.
  intros Hz. destruct (Z.lt_ge_cases (Z.abs z) (2 ^ 53)) as [H|H].
  - by rewrite roundDouble_safe.
  - destruct (roundDouble_large z H) as [-> | (m & Hm & ->)]; simpl.
    + apply Z.ltb_ge. done.
    + assert (0 <= Z.sgn z)%Z by lia. nia.
Qed.

(** Rounding keeps the sign of an integer. *)
Lemma roundDouble_gt0 z : num_gt (roundDouble z) (Int 0) = (0 <? z)%Z.
Proof.
  destruct (Z.lt_ge_cases (Z.abs z) (2 ^ 53)) as [H|H].
  - by rewrite roundDouble_safe.
  - destruct (roundDouble_large z H) as [-> | (m & Hm & ->)]; simpl.
    + destruct (Z.ltb_spec z 0), (Z.ltb_spec 0 z); simpl; try done; lia.
    + assert (0 < m)%Z by lia.
      destruct (Z.ltb_spec 0 z), (Z.ltb_spec 0 (Z.sgn z * m)); try done; nia.
Qed.

Lemma roundDouble_lt0 z : num_lt (roundDouble z) (Int 0) = (z <? 0)%Z.
Proof.
  unfold num_lt.
  destruct (Z.lt_ge_cases (Z.abs z) (2 ^ 53)) as [H|H].
  - by rewrite roundDouble_safe.
  - destruct (roundDouble_large z H) as [-> | (m & Hm & ->)]; simpl.
    + done.
    + assert (0 < m)%Z by lia.
      destruct (Z.ltb_spec z 0), (Z.ltb_spec (Z.sgn z * m) 0); try done; nia.
Qed.

(** Rounding keeps an integer on its side of a safe integer. *)
Lemma roundDouble_gt z k :
  (Z.abs k < 2 ^ 53)%Z -> num_gt (roundDouble z) (Int k) = (k <? z)%Z.
Proof.
  intros Hk. destruct (Z.lt_ge_cases (Z.abs z) (2 ^ 53)) as [H|H].
  - by rewrite roundDouble_safe.
  - destruct (roundDouble_large z H) as [-> | (m & Hm & ->)]; simpl.
    + destruct (Z.ltb_spec z 0), (Z.ltb_spec k z); simpl; try done; lia.
    + destruct (Z.ltb_spec k z), (Z.ltb_spec k (Z.sgn z * m)); try done; nia.
Qed.

Lemma roundDouble_lower z k :
  (Z.abs k < 2 ^ 53)%Z -> (k <= z)%Z ->
  roundDouble z = Inf false \/ exists z', roundDouble z = Int z' /\ (k <= z')%Z.
Proof.
  intros Hk Hz. destruct (Z.lt_ge_cases (Z.abs z) (2 ^ 53)) as [H|H].
  - right. exists z. by rewrite roundDouble_safe.
  - destruct (roundDouble_large z H) as [-> | (m & Hm & ->)].
    + left. f_equal. apply Z.ltb_ge. lia.
    + right. eexists. split; [done|]. nia.
Qed.

Lemma roundDouble_upper z k :
  (Z.abs k < 2 ^ 53)%Z -> (z <= k)%Z ->
  roundDouble z = Inf true \/ exists z', roundDouble z = Int z' /\ (z' <= k)%Z.
Proof.
  intros Hk Hz. destruct (Z.lt_ge_cases (Z.abs z) (2 ^ 53)) as [H|H].
  - right. exists z. by rewrite roundDouble_safe.
  - destruct (roundDouble_large z H) as [-> | (m & Hm & ->)].
    + left. f_equal. apply Z.ltb_lt. lia.
    + right. eexists. split; [done|]. nia.
Qed.

(** *** Decimal numerals *)

Lemma isDigit_range c : isDigit c = true <-> 48 <= c <= 57.
Proof.
  unfold isDigit. rewrite andb_true_iff, !N.leb_le. done.
Qed.

Lemma digitVal_digit c :
  isDigit c = true -> digitVal 10 c = Some (Z.of_N c - 48)%Z.
Proof.
  intros H. unfold digitVal. rewrite H. apply isDigit_range in H.
  destruct (Z.ltb_spec (Z.of_N c - 48) 10); [done|lia].
Qed.

Lemma parseDigits_digits ds : forall acc,
  allOf isDigit ds ->
  parseDigits 10 acc ds =
  match ds with
  | [] => acc
  | _ :: _ => Some (fold_left (fun a c => (10 * a + (Z.of_N c - 48))%Z) ds
                      (default 0%Z acc))
  end.
Proof.
  induction ds as [|c ds IH]; intros acc Hd; [done|].
  inversion Hd as [|? ? Hc Hds]; subst. simpl.
  rewrite digitVal_digit by done. rewrite IH by done.
  by destruct ds.
Qed.

Lemma decimalFold_nonneg ds : forall acc,
  (0 <= acc)%Z -> allOf isDigit ds ->
  (0 <= fold_left (fun a c => (10 * a + (Z.of_N c - 48))%Z) ds acc)%Z.
Proof.
  induction ds as [|c ds IH]; intros acc Ha Hd; [done|].
  inversion Hd as [|? ? Hc Hds]; subst. simpl. apply IH; [|done].
  apply isDigit_range in Hc. lia.
Qed.

Lemma decimalValue_nonneg ds : allOf isDigit ds -> (0 <= decimalValue ds)%Z.
Proof. by apply decimalFold_nonneg. Qed.

Lemma trimStart_digits ds : allOf isDigit ds -> trimStart ds = ds.
Proof.
  intros [|c t Hc _]; [done|]. simpl. by rewrite digit_not_space.
Qed.

(** [parseInt] of a string of digits: the double of its decimal value,
    [NaN] when the string is empty. *)
Lemma parseInt_digits ds :
  allOf isDigit ds ->
  parseInt ds = match ds with
                | [] => NaN
                | _ :: _ => roundDouble (decimalValue ds)
                end.
Proof.
  intros Hd. unfold parseInt. rewrite trimStart_digits by done.
  destruct Hd as [|c t Hc Ht]; [done|].
  pose proof Hc as Hr. apply isDigit_range in Hr.
  destruct (N.eqb_spec c 45); [lia|]. destruct (N.eqb_spec c 43); [lia|].
  assert (parseDigits 10 None (c :: t) = Some (decimalValue (c :: t))) as Hp.
  { rewrite parseDigits_digits by by constructor. done. }
  destruct Ht as [|x t Hx Ht].
  - rewrite Hp. f_equal. lia.
  - pose proof Hx as Hxr. apply isDigit_range in Hxr.
    destruct (N.eqb_spec x 120); [lia|]. destruct (N.eqb_spec x 88); [lia|].
    rewrite andb_false_r. rewrite Hp. f_equal. lia.
Qed.

Lemma stripCommas_digits g :
  allOf isDigitOrComma g -> allOf isDigit (stripCommas g).
Proof.
  unfold stripCommas. induction 1 as [|c g Hc _ IH]; [constructor|].
  simpl. destruct (N.eqb_spec c 44); simpl; [done|].
  constructor; [|done]. unfold isDigitOrComma in Hc.
  apply orb_true_iff in Hc as [?|H]; [done|]. by apply N.eqb_eq in H.
Qed.

(** A match of the balance pattern captures a non-empty run of digits
    and commas. *)
Lemma balanceRe_match_inv body m :
  js_match balanceRe body = Some m ->
  exists g, group 1 m = Some g /\ g <> [] /\ allOf isDigitOrComma g.
Proof.
  unfold js_match, balanceRe. cbn [pattern ignoreCase]. intros H.
  apply execFrom_Some in H as (l1 & w & l2 & s' & -> & Hr & Hl & ->).
  apply reach_seq_inv in Hr as (s1 & H1 & Hr).
  apply reach_rstr_inv in H1 as (w1 & r1 & Hr1 & Hw1 & ->). cursor.
  apply reach_seq_inv in Hr as (s2 & H2 & Hr).
  apply reach_plus_inv in H2 as (w2 & r2 & Hr2 & Hne2 & Hw2 & ->). cursor.
  apply reach_seq_inv in Hr as (s3 & H3 & Hr).
  apply reach_group_inv in H3 as (s3' & H3 & ->).
  apply reach_plus_inv in H3 as (g & r3 & Hr3 & Hne3 & Hw3 & ->). cursor.
  apply reach_seq_inv in Hr as (s4 & H4 & Hr).
  apply reach_star_inv in H4 as (w4 & r4 & Hr4 & Hw4 & ->). cursor.
  apply reach_rstr_inv in Hr as (w5 & r5 & Hr5 & Hw5 & ->). cursor.
  exists g. rewrite Hr3, consumed_app. done.
Qed.

(** Whenever the balance is present it is [NaN] (the matched text has
    no digit) or not negative. *)
Lemma parseCommit_balance_values msg ts v :
  balance (parseCommit msg ts) = Some v ->
  v = NaN \/ nonNegative v.
Proof.
  unfold parseCommit. destruct (js_match cycleRe msg) as [cm|]; [|done].
  cbn [balance]. destruct (js_match balanceRe _) as [m|] eqn:E; [|done].
  intros [= <-]. apply balanceRe_match_inv in E as (g & Hg & _ & Hd).
  unfold parseAmount. rewrite Hg. change (default [] (Some g)) with g.
  apply stripCommas_digits in Hd. rewrite parseInt_digits by done.
  destruct (stripCommas g) eqn:Es; [by left|right].
  rewrite <- Es in *. by apply roundDouble_nonNegative, decimalValue_nonneg.
Qed.

(** The cycle number of a cycle record is the double of the decimal
    value of the digits of its prefix. *)
Lemma parseCommit_cycle_value msg ts pre num tail :
  isCyclePrefix pre num -> msg = pre ++ tail ->
  cycle (parseCommit msg ts) = Some (roundDouble (decimalValue num)).
Proof.
  intros Hp Ht.
  assert (is_Some (js_match cycleRe msg)) as [m Hm].
  { apply cycleRe_spec. by exists pre, num, tail. }
  destruct (cycleRe_match_inv _ _ Hm) as (num' & tail' & Hp' & Ht' & Hg).
  rewrite Ht in Ht'.
  destruct (isCyclePrefix_unique _ _ _ _ _ _ Hp Hp' Ht') as (_ & <- & _).
  unfold parseCommit. rewrite Hm. cbn [cycle]. rewrite Hg.
  unfold parseIntCapture. change (default (lit "undefined") (Some num)) with num.
  destruct Hp as (w & r & _ & _ & _ & Hne & Hd & _).
  rewrite parseInt_digits by done. by destruct num.
Qed.

(** A match of the heartbeat pattern captures a non-empty run of
    digits, so the heartbeat of a record is never [NaN]. *)
Lemma heartbeatRe_match_inv body m :
  js_match heartbeatRe body = Some m ->
  exists g, group 1 m = Some g /\ g <> [] /\ allOf isDigit g.
Proof.
  unfold js_match, heartbeatRe. cbn [pattern ignoreCase]. intros H.
  apply execFrom_Some in H as (l1 & w & l2 & s' & -> & Hr & Hl & ->).
  apply reach_seq_inv in Hr as (s1 & H1 & Hr).
  apply reach_rstr_inv in H1 as (w1 & r1 & Hr1 & Hw1 & ->). cursor.
  apply reach_seq_inv in Hr as (s2 & H2 & Hr).
  apply reach_plus_inv in H2 as (w2 & r2 & Hr2 & Hne2 & Hw2 & ->). cursor.
  apply reach_seq_inv in Hr as (s3 & H3 & Hr).
  apply reach_char_inv in H3 as (x & t & Hx & Hxe & ->). cursor.
  apply reach_group_inv in Hr as (s4 & H4 & ->).
  apply reach_plus_inv in H4 as (g & r4 & Hr4 & Hne4 & Hw4 & ->). cursor.
  exists g. rewrite Hr4, consumed_app. done.
Qed.

Lemma parseCommit_heartbeat_values msg ts v :
  heartbeat (parseCommit msg ts) = Some v -> nonNegative v.
Proof.
  unfold parseCommit. destruct (js_match cycleRe msg) as [cm|]; [|done].
  cbn [heartbeat]. destruct (js_match heartbeatRe _) as [m|] eqn:E; [|done].
  intros [= <-]. apply heartbeatRe_match_inv in E as (g & Hg & Hne & Hd).
  rewrite Hg. unfold parseIntCapture.
  change (default (lit "undefined") (Some g)) with g.
  rewrite parseInt_digits by done. destruct g as [|c g]; [done|].
  by apply roundDouble_nonNegative, decimalValue_nonneg.
Qed.

(** A match of the delta pattern captures a sign, a digit, and digits
    and commas, so the delta of a record is never [NaN]. *)
Lemma deltaRe_match_inv body m :
  js_match deltaRe body = Some m ->
  exists sg d ds,
    group 1 m = Some (sg :: d :: ds) /\
    isSign sg = true /\ isDigit d = true /\ allOf isDigitOrComma ds.
Proof.
  unfold js_match, deltaRe, digit. cbn [pattern ignoreCase]. intros H.
  apply execFrom_Some in H as (l1 & w & l2 & s' & -> & Hr & Hl & ->).
  apply reach_seq_inv in Hr as (s1 & H1 & Hr).
  apply reach_char_inv in H1 as (x & t & Hx & Hxe & ->). cursor.
  apply reach_seq_inv in Hr as (s2 & H2 & Hr).
  apply reach_group_inv in H2 as (s3 & H2 & ->).
  apply reach_seq_inv in H2 as (s4 & H4 & H2).
  apply reach_class_inv in H4 as (sg & t4 & Hsg & Hsgp & ->). cursor.
  apply reach_seq_inv in H2 as (s5 & H5 & H2).
  apply reach_class_inv in H5 as (d & t5 & Hd & Hdp & ->). cursor.
  apply reach_star_inv in H2 as (ds & t6 & Hds & Hdsp & ->). cursor.
  apply reach_char_inv in Hr as (y & t7 & Hy & Hye & ->). cursor.
  exists sg, d, ds. rewrite Hsg, Hd, Hds.
  change (sg :: d :: ds ++ t6) with ((sg :: d :: ds) ++ t6).
  by rewrite consumed_app.
Qed.

(** [parseInt] of a sign followed by digits. *)
Lemma parseInt_signed sg ds :
  isSign sg = true -> ds <> [] -> allOf isDigit ds ->
  parseInt (sg :: ds) =
  roundDouble ((if sg =? 45 then -1 else 1) * decimalValue ds).
Proof.
  intros Hs Hne Hd. unfold parseInt.
  assert (Hsg : sg = 43 \/ sg = 45).
  { unfold isSign in Hs. apply orb_true_iff in Hs as [H|H];
      apply N.eqb_eq in H; auto. }
  assert (trimStart (sg :: ds) = sg :: ds) as ->.
  { by destruct Hsg as [-> | ->]. }
  assert (parseDigits 10 None ds = Some (decimalValue ds)) as Hp.
  { rewrite parseDigits_digits by done. by destruct ds. }
  assert (forall sign,
            (let '(radix, s3) :=
               match ds with
               | c :: x :: t =>
                   if (c =? 48) && ((x =? 120) || (x =? 88)) then (16%Z, t)
                   else (10%Z, ds)
               | _ => (10%Z, ds)
               end in
             match parseDigits radix None s3 with
             | Some v => roundDouble (sign * v)
             | None => NaN
             end) = roundDouble (sign * decimalValue ds)) as Hrad.
  { intros sign. destruct Hd as [|c t Hc Ht]; [done|].
    destruct Ht as [|x t Hx Ht]; [by rewrite Hp|].
    apply isDigit_range in Hx.
    destruct (N.eqb_spec x 120); [lia|]. destruct (N.eqb_spec x 88); [lia|].
    rewrite andb_false_r. by rewrite Hp. }
  destruct Hsg as [-> | ->]; cbn [N.eqb Pos.eqb]; apply Hrad.
Qed.

Lemma parseCommit_delta_values msg ts v :
  balanceDelta (parseCommit msg ts) = Some v -> v <> NaN.
Proof.
  unfold parseCommit. destruct (js_match cycleRe msg) as [cm|]; [|done].
  cbn [balanceDelta]. destruct (js_match deltaRe _) as [m|] eqn:E; [|done].
  intros [= <-]. apply deltaRe_match_inv in E as (sg & d & ds & Hg & Hs & Hd & Hds).
  unfold parseAmount. rewrite Hg.
  change (default [] (Some (sg :: d :: ds))) with (sg :: d :: ds).
  assert (stripCommas (sg :: d :: ds) = sg :: d :: stripCommas ds) as ->.
  { unfold stripCommas. simpl.
    assert ((sg =? 44) = false) as ->.
    { unfold isSign in Hs. apply orb_true_iff in Hs as [H|H];
        apply N.eqb_eq in H; by subst. }
    assert ((d =? 44) = false) as ->; [|done].
    apply isDigit_range in Hd. apply N.eqb_neq. lia. }
  rewrite parseInt_signed; [apply roundDouble_not_NaN|done|done|].
  constructor; [done|]. by apply stripCommas_digits.
Qed.

(** * The day summary *)

Lemma countStatus_cons st c cs :
  countStatus st (c :: cs) =
  ((if decide (status c = st) then 1 else 0) + countStatus st cs)%nat.
Proof.
  unfold countStatus. rewrite filter_cons. by destruct (decide (status c = st)).
Qed.

Lemma countStatus_total cs :
  (countStatus idle cs + countStatus active cs + countStatus error cs
   + countStatus manual cs = length cs)%nat.
Proof.
  induction cs as [|c cs IH]; [done|].
  rewrite !countStatus_cons. simpl. destruct (status c); simpl; lia.
Qed.

(** The counters after the loop, from any starting tally. *)
Lemma tally_counts cs : forall t,
  nIdle (fold_left tallyStep cs t) = (nIdle t + countStatus idle cs)%nat /\
  nActive (fold_left tallyStep cs t) = (nActive t + countStatus active cs)%nat /\
  nError (fold_left tallyStep cs t) = (nError t + countStatus error cs)%nat /\
  nManual (fold_left tallyStep cs t) = (nManual t + countStatus manual cs)%nat.
Proof.
  induction cs as [|c cs IH]; intros t.
  - unfold countStatus. simpl. lia.
  - simpl. destruct (IH (tallyStep t c)) as (-> & -> & -> & ->).
    rewrite !countStatus_cons. unfold tallyStep.
    destruct (status c); simpl; lia.
Qed.

(** C5. In every day summary the total is the sum of the idle, active
    and error counts and the manual count is the number of manual
    records; manual records are not part of the total, which counts the
    records that are not manual. *)
Theorem summarizeDay_counts (date : jsstring) (cycles : list CycleEntry) :
  totalCycles (summarizeDay date cycles) =
    (idleCycles (summarizeDay date cycles)
     + activeCycles (summarizeDay date cycles)
     + errorCycles (summarizeDay date cycles))%nat
  /\ manualCommits (summarizeDay date cycles) = countStatus manual cycles
  /\ idleCycles (summarizeDay date cycles) = countStatus idle cycles
  /\ activeCycles (summarizeDay date cycles) = countStatus active cycles
  /\ errorCycles (summarizeDay date cycles) = countStatus error cycles
  /\ totalCycles (summarizeDay date cycles) =
       (length cycles - countStatus manual cycles)%nat.
Proof.
  unfold summarizeDay. cbn [totalCycles idleCycles activeCycles errorCycles
                           manualCommits].
  destruct (tally_counts cycles tally0) as (-> & -> & -> & ->).
  pose proof (countStatus_total cycles). simpl. lia.
Qed.

(** First and last value are set together. *)
Lemma track_paired v se :
  (is_Some (fst se) <-> is_Some (snd se)) ->
  (is_Some (fst (track v se)) <-> is_Some (snd (track v se))).
Proof.
  destruct v as [x|]; [|done]. destruct se as [[s|] e]; simpl; intros H.
  - split; eauto.
  - split; eauto.
Qed.

Lemma tally_paired cs : forall t,
  (is_Some (balStart t) <-> is_Some (balEnd t)) ->
  (is_Some (hbStart t) <-> is_Some (hbEnd t)) ->
  (is_Some (balStart (fold_left tallyStep cs t))
   <-> is_Some (balEnd (fold_left tallyStep cs t))) /\
  (is_Some (hbStart (fold_left tallyStep cs t))
   <-> is_Some (hbEnd (fold_left tallyStep cs t))).
Proof.
  induction cs as [|c cs IH]; intros t Hb Hh; [done|].
  simpl. apply IH; unfold tallyStep; cbn [balStart balEnd hbStart hbEnd].
  - apply track_paired. by destruct (status c).
  - apply track_paired. by destruct (status c).
Qed.

(** C10. In every day summary the first balance is present exactly when
    the last one is, the balance delta exactly when the first balance
    is, and the first heartbeat exactly when the last one is. *)
Theorem summarizeDay_pairs (date : jsstring) (cycles : list CycleEntry) :
  (is_Some (balanceStart (summarizeDay date cycles))
   <-> is_Some (balanceEnd (summarizeDay date cycles)))
  /\ (is_Some (dayBalanceDelta (summarizeDay date cycles))
      <-> is_Some (balanceStart (summarizeDay date cycles)))
  /\ (is_Some (heartbeatStart (summarizeDay date cycles))
      <-> is_Some (heartbeatEnd (summarizeDay date cycles))).
Proof.
  unfold summarizeDay.
  cbn [balanceStart balanceEnd dayBalanceDelta heartbeatStart heartbeatEnd].
  destruct (tally_paired cycles tally0) as [Hb Hh]; [done..|].
  split_and!; [done| |done].
  destruct (balStart _) as [s|], (balEnd _) as [e|]; split; eauto.
  by intros ?%Hb%is_Some_None.
Qed.

(** * The days of a run *)

Lemma StronglySorted_lt_seq a n : StronglySorted lt (seq a n).
Proof.
  revert a. induction n as [|n IH]; intros a; simpl; constructor; [done|].
  apply Forall_seq. lia.
Qed.

Lemma StronglySorted_sub (P : nat -> Prop) `{forall i, Decision (P i)} l :
  StronglySorted lt l -> StronglySorted lt (filter P l).
Proof.
  induction 1 as [|x l Hl IH Hx]; [constructor|].
  rewrite filter_cons. destruct (decide (P x)); [|done].
  constructor; [done|]. apply Forall_forall. intros y Hy.
  apply list_elem_of_filter in Hy as [_ Hy].
  rewrite Forall_forall in Hx. by apply Hx.
Qed.

(** The loop pushes the summaries of the kept offsets, in order. *)
Lemma flat_map_dayAt daysAgo grouped l :
  flat_map (dayAt daysAgo grouped) l =
  List.map (summaryAt daysAgo grouped)
    (filter (fun i => i = 0%nat \/
                      recordsOn grouped (daysAgo (Z.of_nat i)) <> []) l).
Proof.
  induction l as [|i l IH]; [done|].
  simpl. rewrite filter_cons, IH. unfold dayAt at 1.
  destruct (decide _) as [Hk|Hk]; simpl; unfold summaryAt at 2.
  - destruct Hk as [->|Hk].
    + change (0 <? 0)%nat with false. by rewrite andb_false_r.
    + by destruct (recordsOn grouped (daysAgo (Z.of_nat i))).
  - destruct i as [|i]; [by destruct Hk; left|].
    destruct (recordsOn grouped (daysAgo (Z.of_nat (S i)))); [done|].
    by destruct Hk; right.
Qed.

(** C6, as stated, fails for a day count that is not positive: the loop
    does not run and no day, not even the most recent, is returned.
    Here the clock reads 14 February 2026, the API answers with three
    commits of 12 and 14 February, and zero days are requested. *)
Lemma getDaySummaries_zero_counterexample :
  ~ (exists d rest,
        getDaySummaries sampleDaysAgo sampleNow sampleCommits 0 = d :: rest).
Proof. by intros (d & rest & H). Qed.

(** C6, amended.  Whatever the clock and the fetched commits: for a day
    count [n <= 0] a run that returns gives no summary at all; for
    [n >= 1] the summaries are those of the kept offsets (days before
    today) in strictly increasing order, that is most recent day first;
    an offset is kept exactly when it is below [n] and is either 0 or
    has records; the most recent day comes first even without records,
    and its summary is then empty. *)
Theorem getDaySummaries_days (daysAgo : Z -> jsstring) (nowISO : jsstring)
    (fetchCommits : jsstring -> jsstring -> list Commit) (n : Z) :
  ((n <= 0)%Z -> getDaySummaries daysAgo nowISO fetchCommits n = [])
  /\ ((1 <= n)%Z ->
      exists kept,
        getDaySummaries daysAgo nowISO fetchCommits n =
          List.map (summaryAt daysAgo (fetchGrouped daysAgo nowISO fetchCommits n)) kept
        /\ StronglySorted lt kept
        /\ (forall i, i ∈ kept <->
              (Z.of_nat i < n)%Z /\
              (i = 0%nat \/
               recordsOn (fetchGrouped daysAgo nowISO fetchCommits n)
                 (daysAgo (Z.of_nat i)) <> []))
        /\ (exists rest, kept = 0%nat :: rest)
        /\ (recordsOn (fetchGrouped daysAgo nowISO fetchCommits n) (daysAgo 0%Z) = [] ->
            exists rest,
              getDaySummaries daysAgo nowISO fetchCommits n =
                emptySummary (daysAgo 0%Z) :: rest)).
Proof.
  split.
  { intros Hn. unfold getDaySummaries.
    by replace (Z.to_nat n) with 0%nat by lia. }
  intros Hn. unfold getDaySummaries.
  set (grouped := fetchGrouped daysAgo nowISO fetchCommits n).
  rewrite flat_map_dayAt.
  set (keep := fun i : nat => i = 0%nat \/
                 recordsOn grouped (daysAgo (Z.of_nat i)) <> []).
  exists (filter keep (seq 0 (Z.to_nat n))).
  assert (Hhead : exists rest, filter keep (seq 0 (Z.to_nat n)) = 0%nat :: rest).
  { destruct (Z.to_nat n) as [|m] eqn:E; [lia|]. simpl.
    rewrite filter_cons. destruct (decide (keep 0%nat)) as [_|[]]; [eauto|by left]. }
  split_and!; [done| | |done|].
  - apply StronglySorted_sub, StronglySorted_lt_seq.
  - intros i. rewrite list_elem_of_filter, elem_of_seq. unfold keep.
    split; intros [? ?]; split; try done; lia.
  - intros He. destruct Hhead as [rest ->]. exists (List.map (summaryAt daysAgo grouped) rest).
    simpl. unfold summaryAt at 1. change (Z.of_nat 0) with 0%Z.
    by rewrite He.
Qed.

(** Three days requested from the sample run: 14 February with two
    cycles, 13 February omitted, 12 February with one cycle; and no day
    at all when minus two days are requested. *)
Lemma getDaySummaries_days_witness :
  getDaySummaries sampleDaysAgo sampleNow sampleCommits (-2) = []
  /\ exists kept,
    getDaySummaries sampleDaysAgo sampleNow sampleCommits 3 =
      List.map (summaryAt sampleDaysAgo
             (fetchGrouped sampleDaysAgo sampleNow sampleCommits 3)) kept
    /\ StronglySorted lt kept
    /\ (forall i, i ∈ kept <->
          (Z.of_nat i < 3)%Z /\
          (i = 0%nat \/
           recordsOn (fetchGrouped sampleDaysAgo sampleNow sampleCommits 3)
             (sampleDaysAgo (Z.of_nat i)) <> []))
    /\ (exists rest, kept = 0%nat :: rest)
    /\ (recordsOn (fetchGrouped sampleDaysAgo sampleNow sampleCommits 3)
          (sampleDaysAgo 0%Z) = [] ->
        exists rest,
          getDaySummaries sampleDaysAgo sampleNow sampleCommits 3 =
            emptySummary (sampleDaysAgo 0%Z) :: rest).
Proof.
  split.
  - apply (proj1 (getDaySummaries_days sampleDaysAgo sampleNow sampleCommits (-2))).
    lia.
  - apply (proj2 (getDaySummaries_days sampleDaysAgo sampleNow sampleCommits 3)).
    lia.
Defined.

(** * The narrative *)

(** Where the clauses sit in the array that [narrateDay] joins. *)
Lemma narrateParts_clauses toLocaleString day parts :
  narrateParts toLocaleString day = Some parts ->
  exists bal,
    balancePart toLocaleString day = Some bal /\
    parts = cyclesPart day ++ errorPart day ++ bal
            ++ heartbeatPart day ++ eventsPart day.
Proof.
  unfold narrateParts. destruct (balancePart toLocaleString day) as [bal|]; [|done].
  intros [= <-]. eauto.
Qed.

(** On the summaries that [summarizeDay] builds, [narrateDay] returns a
    text: the balance clause never dereferences an absent balance. *)
Lemma narrateDay_total toLocaleString date cycles :
  is_Some (narrateDay toLocaleString (summarizeDay date cycles)).
Proof.
  unfold narrateDay. destruct (_ && _); [eauto|].
  unfold narrateParts, balancePart, summarizeDay.
  cbn [dayBalanceDelta balanceEnd].
  destruct (balStart _), (balEnd _); try (by eauto).
  destruct (num_gt _ _); [eauto|]. destruct (num_lt _ _); eauto.
Qed.

(** The count of the heartbeat clause is at least 1 when the last
    heartbeat is not below the first, and at most 0 otherwise. *)
Lemma heartbeatCount_upward hs he :
  (hs <= he)%Z ->
  heartbeatCount (Int hs) (Int he) = Inf false \/
  exists z, heartbeatCount (Int hs) (Int he) = Int z /\ (1 <= z)%Z.
Proof.
  intros Hle. unfold heartbeatCount. cbn [num_sub].
  destruct (roundDouble_lower (he - hs) 0) as [-> | (d & -> & Hd)];
    [done|lia|by left|].
  cbn [num_add]. apply roundDouble_lower; [done|lia].
Qed.

Lemma heartbeatCount_downward hs he :
  (he < hs)%Z -> num_gt (heartbeatCount (Int hs) (Int he)) (Int 1) = false.
Proof.
  intros Hlt. unfold heartbeatCount. cbn [num_sub].
  destruct (roundDouble_upper (he - hs) (-1)) as [-> | (d & -> & Hd)];
    [done|lia|done|].
  cbn [num_add]. rewrite roundDouble_gt by done. apply Z.ltb_ge. lia.
Qed.

(** C7, as stated, fails when the last heartbeat is below the first: the
    day made of a record with heartbeat 5 followed by one with heartbeat
    3 has count 3 - 5 + 1 = -1, and the clause reads "Sent 1 heartbeat". *)
Lemma heartbeatPart_counterexample :
  ~ (forall day hs he,
        heartbeatStart day = Some (Int hs) ->
        heartbeatEnd day = Some (Int he) ->
        heartbeatPart day = [heartbeatSentence (heartbeatCount (Int hs) (Int he))]).
Proof.
  intros H.
  specialize (H (summarizeDay (lit "2026-02-14")
                   [parseCommit (lit "Cycle 1: idle, heartbeat #5")
                      (lit "2026-02-14T09:30:00Z");
                    parseCommit (lit "Cycle 2: idle, heartbeat #3")
                      (lit "2026-02-14T10:30:00Z")])
                5%Z 3%Z eq_refl eq_refl).
  by vm_compute in H.
Qed.

(** C7, amended.  With first heartbeat [hs] and last heartbeat [he],
    both finite: when [hs <= he] the clause reports the count
    [he - hs + 1] as the arithmetic of doubles gives it, in the singular
    for 1 and in the plural otherwise, and this count is the integer
    [he - hs + 1] itself whenever that is below 2^53; when [he < hs] the
    clause reads "Sent 1 heartbeat to AIBTC.".  The clause is an element
    of the array that [narrateDay] joins. *)
Theorem heartbeatPart_count (day : DaySummary) (hs he : Z) :
  heartbeatStart day = Some (Int hs) ->
  heartbeatEnd day = Some (Int he) ->
  ((hs <= he)%Z ->
   heartbeatPart day = [heartbeatSentence (heartbeatCount (Int hs) (Int he))])
  /\ ((hs <= he)%Z -> (he - hs + 1 < 2 ^ 53)%Z ->
      heartbeatCount (Int hs) (Int he) = Int (he - hs + 1))
  /\ ((he < hs)%Z -> heartbeatPart day = [lit "Sent 1 heartbeat to AIBTC."])
  /\ (forall toLocaleString parts,
         narrateParts toLocaleString day = Some parts ->
         exists before after, parts = before ++ heartbeatPart day ++ after).
Proof.
  intros Hs He. split_and!.
  - intros Hle. unfold heartbeatPart, heartbeatSentence. rewrite Hs, He.
    fold (heartbeatCount (Int hs) (Int he)).
    destruct (heartbeatCount_upward hs he Hle) as [-> | (z & -> & Hz)]; [done|].
    cbn [num_gt number_eqb].
    destruct (Z.ltb_spec 1 z), (Z.eqb_spec z 1); try done; lia.
  - intros Hle Hb. unfold heartbeatCount. cbn [num_sub].
    rewrite roundDouble_safe by lia. cbn [num_add].
    by rewrite roundDouble_safe by lia.
  - intros Hlt. unfold heartbeatPart. rewrite Hs, He.
    fold (heartbeatCount (Int hs) (Int he)).
    by rewrite heartbeatCount_downward.
  - intros tl parts (bal & _ & ->)%narrateParts_clauses.
    exists (cyclesPart day ++ errorPart day ++ bal), (eventsPart day).
    by rewrite <- !app_assoc.
Qed.

(** Heartbeats 3 to 7 in one day: five heartbeats. *)
Lemma heartbeatPart_count_witness :
  heartbeatPart
    (summarizeDay (lit "2026-02-14")
       [parseCommit (lit "Cycle 1: idle, heartbeat #3") (lit "2026-02-14T09:30:00Z");
        parseCommit (lit "Cycle 2: idle, heartbeat #7") (lit "2026-02-14T10:30:00Z")])
  = [lit "Sent 5 heartbeats to AIBTC."].
Proof.
  refine (proj1 (heartbeatPart_count _ 3 7 _ _) _); [reflexivity|reflexivity|lia].
Defined.

(** ** Unique events *)

Lemma setAdd_fold xs : forall seen,
  fold_left setAdd xs seen =
  seen ++ filter (fun y => y ∉ seen) (keepFirst xs).
Proof.
  induction xs as [|x xs IH]; intros seen; simpl.
  - by rewrite app_nil_r.
  - rewrite IH, filter_cons, list_filter_filter. unfold setAdd.
    destruct (decide (x ∈ seen)) as [Hin|Hin].
    + destruct (decide (x ∉ seen)); [done|]. f_equal.
      apply list_filter_iff. intros y. split; [|tauto].
      intros Hy. split; [done|]. by intros ->.
    + destruct (decide (x ∉ seen)); [|done].
      rewrite <- app_assoc. simpl. do 2 f_equal.
      apply list_filter_iff. intros y.
      rewrite not_elem_of_app, list_elem_of_singleton. tauto.
Qed.

Lemma uniqueOf_keepFirst xs : uniqueOf xs = keepFirst xs.
Proof.
  unfold uniqueOf. rewrite setAdd_fold. simpl.
  induction (keepFirst xs) as [|y l IH]; [done|].
  rewrite filter_cons. destruct (decide (y ∉ [])) as [_|[]].
  - by rewrite IH.
  - apply not_elem_of_nil.
Qed.

Lemma keepFirst_elem_of xs x : x ∈ keepFirst xs <-> x ∈ xs.
Proof.
  induction xs as [|y xs IH]; [done|]. simpl.
  rewrite !elem_of_cons, list_elem_of_filter, IH.
  destruct (decide (x = y)); [tauto|]. tauto.
Qed.

Lemma keepFirst_NoDup xs : NoDup (keepFirst xs).
Proof.
  induction xs as [|y xs IH]; simpl; constructor.
  - rewrite list_elem_of_filter. tauto.
  - by apply NoDup_filter.
Qed.

(** C8. The notable-events clause works on the events with duplicates
    removed, first occurrences kept in order.  With at most three unique
    events it lists them all; with more it lists the first three and
    ends with "and N more." for the N remaining.  For the events
    a, b, a, c, d the unique events are a, b, c, d and the clause ends
    with "and 1 more.". *)
Theorem eventsPart_notable (day : DaySummary) :
  uniqueOf (dayEvents day) = keepFirst (dayEvents day)
  /\ NoDup (uniqueOf (dayEvents day))
  /\ (forall x, x ∈ uniqueOf (dayEvents day) <-> x ∈ dayEvents day)
  /\ (dayEvents day <> [] ->
      (length (uniqueOf (dayEvents day)) <= 3)%nat ->
      eventsPart day =
        [lit "Notable: " ++ join (lit ". ") (uniqueOf (dayEvents day)) ++ lit "."])
  /\ ((3 < length (uniqueOf (dayEvents day)))%nat ->
      eventsPart day =
        [lit "Notable: " ++ join (lit ". ") (firstn 3 (uniqueOf (dayEvents day)))
         ++ lit ", and "
         ++ showCount (length (uniqueOf (dayEvents day)) - 3)
         ++ lit " more."])
  /\ (dayEvents day = [lit "a"; lit "b"; lit "a"; lit "c"; lit "d"] ->
      uniqueOf (dayEvents day) = [lit "a"; lit "b"; lit "c"; lit "d"]
      /\ eventsPart day = [lit "Notable: a. b. c, " ++ lit "and 1 more."])
  /\ (forall toLocaleString parts,
         narrateParts toLocaleString day = Some parts ->
         exists before, parts = before ++ eventsPart day).
Proof.
  split_and!.
  - apply uniqueOf_keepFirst.
  - rewrite uniqueOf_keepFirst. apply keepFirst_NoDup.
  - intros x. rewrite uniqueOf_keepFirst. apply keepFirst_elem_of.
  - intros Hne Hlen. unfold eventsPart.
    destruct (dayEvents day) as [|e es] eqn:E; [done|].
    change (0 <? length (e :: es))%nat with true. cbv iota.
    by apply Nat.leb_le in Hlen as ->.
  - intros Hlen. unfold eventsPart.
    destruct (dayEvents day) as [|e es] eqn:E; [simpl in Hlen; lia|].
    change (0 <? length (e :: es))%nat with true. cbv iota.
    by apply Nat.leb_gt in Hlen as ->.
  - intros E. unfold eventsPart. rewrite E. by vm_compute.
  - intros tl parts (bal & _ & ->)%narrateParts_clauses.
    exists (cyclesPart day ++ errorPart day ++ bal ++ heartbeatPart day).
    by rewrite <- !app_assoc.
Qed.

(** * Worked examples *)

(** A cycle record with every field. *)
Example parseCommit_full_record :
  parseCommit
    (lit "Cycle 8: replied to request, heartbeat #4, balance 1500 sats (+300)")
    (lit "2026-02-14T10:30:00Z") =
  mkCycleEntry (Some (Int 8)) active
    (lit "Cycle 8: replied to request, heartbeat #4, balance 1500 sats (+300)")
    (lit "2026-02-14T10:30:00Z")
    (Some (Int 4)) (Some (Int 1500)) (Some (Int 300))
    [lit "replied to request"].
Proof. reflexivity. Qed.

(** A thousands separator is read by the balance pattern, and it is also
    a separator of the parts, which then are not recognised as the
    balance field. *)
Example parseCommit_thousands :
  parseCommit (lit "Cycle 7: idle, heartbeat #3, balance 1,200 sats")
    (lit "2026-02-14T09:30:00Z") =
  mkCycleEntry (Some (Int 7)) idle
    (lit "Cycle 7: idle, heartbeat #3, balance 1,200 sats")
    (lit "2026-02-14T09:30:00Z")
    (Some (Int 3)) (Some (Int 1200)) None
    [lit "balance 1"; lit "200 sats"].
Proof. reflexivity. Qed.

(** A range keeps its first number; the body may span several lines. *)
Example parseCommit_range :
  parseCommit (lit "Cycle 12-13: deploy" ++ [10] ++ lit "push BLOCKED (-1,200)")
    (lit "2026-02-14T09:30:00Z") =
  mkCycleEntry (Some (Int 12)) error (lit "Cycle 12-13: deploy")
    (lit "2026-02-14T09:30:00Z") None None (Some (Int (-1200)))
    [lit "deploy" ++ [10] ++ lit "push BLOCKED (-1"; lit "200)"].
Proof. reflexivity. Qed.

(** Numbers beyond 2^53 are rounded to a double by [parseInt]: the
    cycle number 2^53 + 1 is stored as 2^53, and a heartbeat of 310
    digits as the positive infinity. *)
Example parseCommit_rounded :
  cycle (parseCommit (lit "Cycle 9007199254740993: idle")
           (lit "2026-02-14T09:30:00Z")) = Some (Int 9007199254740992)
  /\ heartbeat (parseCommit
                  (lit "Cycle 1: idle, heartbeat #1" ++ repeat (ch "0") 309)
                  (lit "2026-02-14T09:30:00Z")) = Some (Inf false).
Proof. split; by vm_compute. Qed.

(** From 10^21 on a number is written with an exponent. *)
Example narrateCycle_exponent :
  narrateCycle (parseCommit (lit "Cycle 1000000000000000000000: idle")
                  (lit "2026-02-14T09:30:00Z")) =
  lit "<strong>09:30</strong> Cycle 1e+21: checked in (idle)".
Proof. by vm_compute. Qed.

(** Sums and differences are rounded as well: heartbeats 0 to 2^53 are
    counted as 2^53, and from balance 1 to balance 2^60 the delta is
    2^60. *)
Example summarizeDay_rounded :
  heartbeatPart
    (summarizeDay (lit "2026-02-14")
       [parseCommit (lit "Cycle 1: idle, heartbeat #0") (lit "2026-02-14T09:30:00Z");
        parseCommit (lit "Cycle 2: idle, heartbeat #9007199254740992")
          (lit "2026-02-14T10:30:00Z")])
  = [lit "Sent 9007199254740992 heartbeats to AIBTC."]
  /\ dayBalanceDelta
       (summarizeDay (lit "2026-02-14")
          [parseCommit (lit "Cycle 1: balance 1 sats") (lit "2026-02-14T09:30:00Z");
           parseCommit (lit "Cycle 2: balance 1152921504606846976 sats")
             (lit "2026-02-14T10:30:00Z")])
     = Some (Int 1152921504606846976).
Proof. split; by vm_compute. Qed.

(** The sample run: three commits, newest first, over two days. *)
Example getDaySummaries_two_days :
  List.map (fun d => (date d, List.map cycle (cycles d), totalCycles d))
    (getDaySummaries sampleDaysAgo sampleNow sampleCommits 3) =
  [(lit "2026-02-14", [Some (Int 7); Some (Int 8)], 2%nat);
   (lit "2026-02-12", [Some (Int 6)], 1%nat)].
Proof. by vm_compute. Qed.

(** The narrative of a day, with [toString] standing for the locale. *)
Example narrateDay_day :
  narrateDay num_toString
    (summarizeDay (lit "2026-02-14")
       [parseCommit (lit "Cycle 7: idle, heartbeat #3, balance 1200 sats")
          (lit "2026-02-14T09:30:00Z");
        parseCommit
          (lit "Cycle 8: replied to request, heartbeat #4, balance 1500 sats (+300)")
          (lit "2026-02-14T10:30:00Z");
        parseCommit (lit "Fix typo in README") (lit "2026-02-14T11:00:00Z")]) =
  Some (lit "Ran 2 cycles &mdash; 1 active, 1 on standby. "
        ++ lit "Balance grew by 300 sats to 1500 sats. "
        ++ lit "Sent 2 heartbeats to AIBTC. "
        ++ lit "Notable: replied to request. Fix typo in README.").
Proof. by vm_compute. Qed.

(** A day without records or manual commits. *)
Example narrateDay_empty :
  narrateDay num_toString (summarizeDay (lit "2026-02-14") []) =
  Some (lit "No recorded activity this day.").
Proof. reflexivity. Qed.

(** * Further properties of the parser *)

(** ** Lines, parts and trimming *)

Lemma firstLine_no_lf msg : 10 ∉ firstLine msg.
Proof.
  unfold firstLine. induction msg as [|c t IH]; simpl.
  - apply not_elem_of_nil.
  - destruct (N.eqb_spec c 10); simpl; [apply not_elem_of_nil|].
    destruct (split 10 t) as [|h r] eqn:E; [by apply split_nonempty in E|].
    simpl in *. rewrite not_elem_of_cons. done.
Qed.

Lemma firstLine_tail msg :
  exists tail, msg = firstLine msg ++ tail /\ (tail = [] \/ head tail = Some 10).
Proof.
  unfold firstLine. induction msg as [|c t (tail & IH & Ht)]; simpl.
  - exists []. auto.
  - destruct (N.eqb_spec c 10) as [->|Hc]; simpl.
    + exists (10 :: t). auto.
    + destruct (split 10 t) as [|h r] eqn:E; [by apply split_nonempty in E|].
      simpl in *. exists tail. split; [by rewrite IH at 1|done].
Qed.

Lemma split_no_sep sep s p : p ∈ split sep s -> sep ∉ p.
Proof.
  revert p. induction s as [|c t IH]; intros p; simpl.
  - intros ->%list_elem_of_singleton. apply not_elem_of_nil.
  - destruct (N.eqb_spec c sep) as [->|Hc].
    + intros [->|Hp]%elem_of_cons; [apply not_elem_of_nil|by apply IH].
    + destruct (split sep t) as [|h r] eqn:E; [by apply split_nonempty in E|].
      intros [->|Hp]%elem_of_cons.
      * rewrite not_elem_of_cons. split; [done|]. apply IH. by left.
      * apply IH. by right.
Qed.

Lemma substringOf_refl s : substringOf s s.
Proof. exists [], []. by rewrite app_nil_r. Qed.

Lemma substringOf_trans p q s :
  substringOf p q -> substringOf q s -> substringOf p s.
Proof.
  intros (a & b & ->) (a' & b' & ->). exists (a' ++ a), (b ++ b').
  by rewrite <- !app_assoc.
Qed.

Lemma split_join sep s : join [sep] (split sep s) = s.
Proof.
  induction s as [|c t IH]; [done|]. simpl.
  destruct (split sep t) as [|h r] eqn:E; [by apply split_nonempty in E|].
  destruct (N.eqb_spec c sep) as [->|Hc].
  - change (join [sep] ([] :: h :: r)) with ([] ++ [sep] ++ join [sep] (h :: r)).
    by rewrite IH.
  - destruct r as [|h' r]; simpl in *; by rewrite <- IH.
Qed.

Lemma join_substring sep l p : p ∈ l -> substringOf p (join sep l).
Proof.
  induction l as [|q l IH]; [by intros ?%elem_of_nil|].
  intros [->|Hp]%elem_of_cons.
  - destruct l as [|q' l]; [apply substringOf_refl|].
    exists [], (sep ++ join sep (q' :: l)). done.
  - destruct l as [|q' l]; [by apply elem_of_nil in Hp|].
    destruct (IH Hp) as (a & b & Hab).
    exists (q ++ sep ++ a), b.
    change (join sep (q :: q' :: l)) with (q ++ sep ++ join sep (q' :: l)).
    rewrite Hab. by rewrite <- !app_assoc.
Qed.

Lemma split_substring sep s p : p ∈ split sep s -> substringOf p s.
Proof.
  intros H. rewrite <- (split_join sep s). by apply join_substring.
Qed.

(** [trimStart] removes a run of white space and stops before the first
    other code unit. *)
Lemma trimStart_spec s :
  exists w, s = w ++ trimStart s /\ allOf isWhiteSpace w
            /\ stops isWhiteSpace (trimStart s).
Proof.
  induction s as [|c t (w & IH & Hw & Hs)]; simpl.
  - exists []. split_and!; [done|constructor|done].
  - destruct (isWhiteSpace c) eqn:E.
    + exists (c :: w). split_and!; [by rewrite IH at 1|by constructor|done].
    + exists []. split_and!; [done|constructor|done].
Qed.

Lemma last_rev_head (l : jsstring) : last (rev l) = head l.
Proof. destruct l as [|x t]; [done|]. simpl. apply last_snoc. Qed.

Lemma trimEnd_spec s :
  exists w, s = trimEnd s ++ w /\ allOf isWhiteSpace w
            /\ (forall x, last (trimEnd s) = Some x -> isWhiteSpace x = false).
Proof.
  unfold trimEnd. destruct (trimStart_spec (rev s)) as (w & Hr & Hw & Hs).
  exists (rev w). split_and!.
  - rewrite <- rev_app_distr, <- Hr. by rewrite rev_involutive.
  - apply Forall_rev, Hw.
  - intros x. rewrite last_rev_head. destruct (trimStart (rev s)); [done|].
    simpl in *. by intros [= <-].
Qed.

Lemma trim_spec s :
  exists a b, s = a ++ trim s ++ b /\ allOf isWhiteSpace a
              /\ allOf isWhiteSpace b /\ noEdgeSpace (trim s).
Proof.
  unfold trim. destruct (trimStart_spec s) as (a & Ha & Haw & Hs).
  destruct (trimEnd_spec (trimStart s)) as (b & Hb & Hbw & Hl).
  exists a, b. split_and!; [by rewrite <- Hb| done | done |].
  split; [|done]. intros x Hx.
  rewrite Hb in Hs. destruct (trimEnd (trimStart s)) as [|y t]; [done|].
  simpl in *. by injection Hx as <-.
Qed.

Lemma trim_substring s : substringOf (trim s) s.
Proof. destruct (trim_spec s) as (a & b & H & _). by exists a, b. Qed.

Lemma substringOf_not_elem x p s : substringOf p s -> x ∉ s -> x ∉ p.
Proof.
  intros (a & b & ->) H Hp. apply H.
  rewrite !elem_of_app. auto.
Qed.

(** ** The first line *)

(** X1. The headline kept in a record is the text of the message up to
    its first line feed: it holds no line feed, and the message is the
    headline followed by nothing or by a line feed and more text; the
    timestamp is copied. *)
Theorem parseCommit_headline (msg ts : jsstring) :
  (10 ∉ message (parseCommit msg ts))
  /\ (exists tail, msg = message (parseCommit msg ts) ++ tail
                   /\ (tail = [] \/ head tail = Some 10))
  /\ timestamp (parseCommit msg ts) = ts.
Proof.
  assert (message (parseCommit msg ts) = firstLine msg) as ->.
  { unfold parseCommit. by destruct (js_match cycleRe msg). }
  split_and!; [apply firstLine_no_lf|apply firstLine_tail|].
  unfold parseCommit. by destruct (js_match cycleRe msg).
Qed.

(** ** Values of the fields *)

(** X2. For a message that begins with a cycle prefix, the cycle number
    is the double nearest to the decimal value of the digits after
    "Cycle": never [NaN], never negative, and that value itself when it
    is below 2^53.  Of a range only the first number is kept. *)
Theorem parseCommit_cycle_number (msg ts pre num tail : jsstring) :
  isCyclePrefix pre num -> msg = pre ++ tail ->
  cycle (parseCommit msg ts) = Some (roundDouble (decimalValue num))
  /\ nonNegative (roundDouble (decimalValue num))
  /\ ((decimalValue num < 2 ^ 53)%Z ->
      cycle (parseCommit msg ts) = Some (Int (decimalValue num))).
Proof.
  intros Hp Ht.
  assert (0 <= decimalValue num)%Z as Hv.
  { destruct Hp as (w & r & _ & _ & _ & _ & Hd & _). by apply decimalValue_nonneg. }
  split_and!.
  - by eapply parseCommit_cycle_value.
  - by apply roundDouble_nonNegative.
  - intros Hb. erewrite parseCommit_cycle_value by done.
    by rewrite roundDouble_safe by lia.
Qed.

(** The range "Cycle 12-13:" has number 12. *)
Lemma parseCommit_cycle_number_witness :
  cycle (parseCommit (lit "Cycle 12-13: deploy") (lit "2026-02-14T09:30:00Z"))
  = Some (Int 12).
Proof.
  refine (proj1 (parseCommit_cycle_number _ _ (lit "Cycle 12-13:") (lit "12")
                   (lit " deploy") _ _)); [|reflexivity].
  exists (lit " "), (lit "-13"). split_and!; try done.
  - repeat constructor.
  - repeat constructor.
  - right. exists (lit "13"). split_and!; try done. repeat constructor.
Defined.

(** X3. Whenever a parsed record has a heartbeat, it is not negative and
    not [NaN]: a non-negative integer, or the positive infinity when the
    digits exceed every finite double. *)
Theorem parseCommit_heartbeat_number (msg ts : jsstring) (v : number) :
  heartbeat (parseCommit msg ts) = Some v -> nonNegative v.
Proof. apply parseCommit_heartbeat_values. Qed.

Lemma parseCommit_heartbeat_number_witness : nonNegative (Int 4).
Proof.
  apply (parseCommit_heartbeat_number (lit "Cycle 9: idle, heartbeat #4")
           (lit "2026-02-14T09:30:00Z") (Int 4)).
  reflexivity.
Defined.

(** X4. Whenever a parsed record has a balance delta, it is never
    [NaN]: the pattern requires a digit after the sign. *)
Theorem parseCommit_delta_number (msg ts : jsstring) (v : number) :
  balanceDelta (parseCommit msg ts) = Some v -> v <> NaN.
Proof. apply parseCommit_delta_values. Qed.

Lemma parseCommit_delta_number_witness : Int (-1200) <> NaN.
Proof.
  apply (parseCommit_delta_number (lit "Cycle 9: paid invoice (-1,200)")
           (lit "2026-02-14T09:30:00Z") (Int (-1200))).
  reflexivity.
Defined.

(** X5. Whenever a parsed record has a balance, it is [NaN] or not
    negative (a non-negative integer or the positive infinity); no input
    gives a negative balance. *)
Theorem parseCommit_balance_number (msg ts : jsstring) (v : number) :
  balance (parseCommit msg ts) = Some v -> v = NaN \/ nonNegative v.
Proof. apply parseCommit_balance_values. Qed.

Lemma parseCommit_balance_number_witness :
  Int 1500 = NaN \/ nonNegative (Int 1500).
Proof.
  apply (parseCommit_balance_number (lit "Cycle 9: balance 1,500 sats")
           (lit "2026-02-14T09:30:00Z") (Int 1500)).
  reflexivity.
Defined.

(** ** Residual events *)

(** A pattern character that is not a letter matches only itself, also
    under the [i] flag. *)
Lemma chEq_hash x : chEq true (ch "#") x = true -> x = ch "#".
Proof.
  unfold chEq, canon, isLower. change (ch "#") with 35. intros H. nbool.
Qed.

(** [/^w$/i] matches exactly the texts equal to [w] up to case. *)
Lemma anchored_literal_spec w part :
  test (mkRegExp (RBol >> rstr w >> REol) true) part = true <->
  List.map canon part = List.map canon w.
Proof.
  rewrite test_is_Some. unfold js_match. cbn [pattern ignoreCase]. split.
  - intros [m Hm].
    apply execFrom_Some in Hm as (l1 & x & l2 & s' & -> & Hr & Hl & _).
    apply reach_seq_inv in Hr as (s1 & H1 & Hr).
    apply reach_bol_inv in H1 as [Hp ->]. cursor.
    apply prevAfter_None in Hp as ->.
    apply reach_seq_inv in Hr as (s2 & H2 & Hr).
    apply reach_rstr_inv in H2 as (w' & r & Hw & Hs & ->). cursor.
    apply reach_eol_inv in Hr as [He ->]. cursor. subst. simpl.
    rewrite ?app_nil_r in *. subst. by apply sameText_canon.
  - intros Hc. apply (execFrom_is_Some true _ None [] part
                        (advance (MState None part []) part [])).
    apply reach_seq_inv. exists (MState None part []).
    split; [by apply reach_bol_inv|].
    apply reach_seq_inv. exists (advance (MState None part []) part []).
    split; [|by apply reach_eol_inv].
    apply reach_rstr_inv. exists part, []. split_and!; [|by apply sameText_canon|done].
    cbn [rest]. by rewrite app_nil_r.
Qed.

Lemma heartbeatPartRe_spec part :
  test heartbeatPartRe part = true <-> heartbeatShape part.
Proof.
  rewrite test_is_Some. unfold js_match, heartbeatPartRe.
  cbn [pattern ignoreCase]. split.
  - intros [m Hm].
    apply execFrom_Some in Hm as (l1 & x & l2 & s' & -> & Hr & Hl & _).
    apply reach_seq_inv in Hr as (s1 & H1 & Hr).
    apply reach_bol_inv in H1 as [Hp ->]. cursor.
    apply prevAfter_None in Hp as ->.
    apply reach_seq_inv in Hr as (s2 & H2 & Hr).
    apply reach_rstr_inv in H2 as (h & r1 & Hh & Hs & ->). cursor.
    apply reach_seq_inv in Hr as (s3 & H3 & Hr).
    apply reach_plus_inv in H3 as (w & r2 & Hw & Hne & Hws & ->). cursor.
    apply reach_seq_inv in Hr as (s4 & H4 & Hr).
    apply reach_char_inv in H4 as (c & r3 & Hc & Hce & ->). cursor.
    apply chEq_hash in Hce as ->.
    apply reach_seq_inv in Hr as (s5 & H5 & Hr).
    apply reach_plus_inv in H5 as (ds & r4 & Hds & Hdne & Hdd & ->). cursor.
    apply reach_eol_inv in Hr as [He ->]. cursor. subst. simpl.
    rewrite ?app_nil_r in *. subst.
    exists h, w, ds. split_and!; try done.
    by apply sameText_canon.
  - intros (h & w & ds & -> & Hh & Hne & Hw & Hdne & Hd).
    set (s0 := MState None (h ++ w ++ ch "#" :: ds) []).
    apply (execFrom_is_Some true _ None [] _
             (advance s0 (h ++ w ++ ch "#" :: ds) [])).
    apply reach_seq_inv. exists s0. split; [by apply reach_bol_inv|].
    apply reach_seq_inv. exists (advance s0 h (w ++ ch "#" :: ds)). split.
    { apply reach_rstr_inv. eexists _, _. split_and!; [done| |done].
      by apply sameText_canon. }
    apply reach_seq_inv. exists (advance s0 (h ++ w) (ch "#" :: ds)). split.
    { apply reach_plus_inv. exists w, (ch "#" :: ds).
      rewrite advance_advance. done. }
    apply reach_seq_inv. exists (advance s0 (h ++ w ++ [ch "#"]) ds). split.
    { apply reach_char_inv. exists (ch "#"), ds.
      rewrite advance_advance, <- app_assoc. split_and!; [done| |done].
      apply N.eqb_refl. }
    apply reach_seq_inv. exists (advance s0 (h ++ w ++ ch "#" :: ds) []). split.
    { apply reach_plus_inv. exists ds, []. rewrite advance_advance.
      rewrite app_nil_r, <- !app_assoc. done. }
    by apply reach_eol_inv.
Qed.

(** The events of a cycle record are parts of a body that is a piece of
    the message. *)
Lemma events_of_cycle msg ts :
  status (parseCommit msg ts) <> manual ->
  exists body, substringOf body msg
               /\ events (parseCommit msg ts) = notableParts body.
Proof.
  unfold parseCommit. destruct (js_match cycleRe msg) as [m|]; [|done].
  intros _. exists (bodyOf msg m). split; [|done].
  unfold bodyOf, sliceFrom. eapply substringOf_trans; [apply trim_substring|].
  exists (take (length (whole m)) msg), [].
  by rewrite app_nil_r, take_drop.
Qed.

Lemma notableParts_elem body e :
  e ∈ notableParts body ->
  keepPart e = true /\ exists p, p ∈ split (ch ",") body /\ e = trim p.
Proof.
  unfold notableParts. rewrite list_elem_of_In, filter_In, in_map_iff.
  intros [(p & <- & Hp) Hk]. split; [done|]. exists p.
  by rewrite list_elem_of_In.
Qed.

(** X6. Every event of a cycle record is a non-empty comma-free text
    without white space at either end. *)
Theorem parseCommit_events_trimmed (msg ts e : jsstring) :
  status (parseCommit msg ts) <> manual ->
  e ∈ events (parseCommit msg ts) ->
  e <> [] /\ (ch "," ∉ e) /\ noEdgeSpace e.
Proof.
  intros (body & _ & ->)%events_of_cycle (Hk & p & Hp & ->)%notableParts_elem.
  split_and!.
  - unfold keepPart in Hk. apply andb_true_iff in Hk as [_ Hl].
    apply Nat.ltb_lt in Hl. intros E. rewrite E in Hl. simpl in Hl. lia.
  - eapply substringOf_not_elem; [apply trim_substring|].
    by eapply split_no_sep.
  - by destruct (trim_spec p) as (_ & _ & _ & _ & _ & H).
Qed.

Lemma parseCommit_events_trimmed_witness :
  lit "fixed the relay" <> []
  /\ (ch "," ∉ lit "fixed the relay")
  /\ noEdgeSpace (lit "fixed the relay").
Proof.
  apply (parseCommit_events_trimmed
           (lit "Cycle 3: idle,  fixed the relay , heartbeat #9")
           (lit "2026-02-14T09:30:00Z")).
  - by vm_compute.
  - vm_compute. apply list_elem_of_here.
Defined.

(** X7. No event of a cycle record is "idle" or "GitHub clean" up to
    case, or has the shape "heartbeat #N": those parts are dropped. *)
Theorem parseCommit_events_filtered (msg ts e : jsstring) :
  status (parseCommit msg ts) <> manual ->
  e ∈ events (parseCommit msg ts) ->
  List.map canon e <> List.map canon (lit "idle")
  /\ List.map canon e <> List.map canon (lit "GitHub clean")
  /\ ~ heartbeatShape e.
Proof.
  intros (body & _ & ->)%events_of_cycle (Hk & _)%notableParts_elem.
  unfold keepPart in Hk. rewrite !andb_true_iff, !negb_true_iff in Hk.
  destruct Hk as ((((Hi & Hh) & _) & Hg) & _).
  split_and!.
  - intros H. apply (anchored_literal_spec (lit "idle")) in H.
    unfold idlePartRe in Hi. congruence.
  - intros H. apply (anchored_literal_spec (lit "GitHub clean")) in H.
    unfold githubCleanRe in Hg. congruence.
  - intros H%heartbeatPartRe_spec. congruence.
Qed.

Lemma parseCommit_events_filtered_witness :
  List.map canon (lit "fixed the relay") <> List.map canon (lit "idle")
  /\ List.map canon (lit "fixed the relay") <> List.map canon (lit "GitHub clean")
  /\ ~ heartbeatShape (lit "fixed the relay").
Proof.
  apply (parseCommit_events_filtered
           (lit "Cycle 3: IDLE, fixed the relay, Heartbeat  #9, github clean")
           (lit "2026-02-14T09:30:00Z")).
  - by vm_compute.
  - vm_compute. apply list_elem_of_here.
Defined.

(** X8. Every event of every record, manual or not, is a contiguous piece
    of the message: the parser never invents or reorders text. *)
Theorem parseCommit_events_substrings (msg ts e : jsstring) :
  e ∈ events (parseCommit msg ts) -> substringOf e msg.
Proof.
  destruct (decide (status (parseCommit msg ts) = manual)) as [Hm|Hm].
  - unfold parseCommit in *. destruct (js_match cycleRe msg) as [m|].
    + by apply classify_not_manual in Hm.
    + cbn [events]. intros ->%list_elem_of_singleton.
      destruct (firstLine_prefix msg) as [tail Ht]. exists [], tail. by simpl.
  - destruct (events_of_cycle _ ts Hm) as (body & Hb & ->).
    intros (_ & p & Hp & ->)%notableParts_elem.
    eapply substringOf_trans; [apply trim_substring|].
    eapply substringOf_trans; [by eapply split_substring|done].
Qed.

Lemma parseCommit_events_substrings_witness :
  substringOf (lit "fixed the relay")
    (lit "Cycle 3: idle,  fixed the relay , heartbeat #9").
Proof.
  apply (parseCommit_events_substrings _ (lit "2026-02-14T09:30:00Z")).
  vm_compute. apply list_elem_of_here.
Defined.

(** * Further properties of the grouping and of a run *)

(** One commit adds its record at the end of the list of its day and
    leaves the other days alone. *)
Lemma groupStep_records m c d :
  recordsOn (groupStep m c) d =
  recordsOn m d ++ (if decide (dateOf c = d) then [recordOf c] else []).
Proof.
  unfold groupStep, recordsOn. fold (dateOf c). fold (recordOf c).
  destruct (decide (dateOf c = d)) as [<-|Hd].
  - rewrite lookup_insert_eq. simpl.
    destruct (m !! dateOf c) as [l|] eqn:E; [by rewrite E|].
    by rewrite lookup_insert_eq.
  - rewrite lookup_insert_ne by done.
    destruct (m !! dateOf c) as [l|] eqn:E; [|rewrite lookup_insert_ne by done];
      by rewrite app_nil_r.
Qed.

Lemma groupFold_records l : forall m d,
  recordsOn (fold_left groupStep l m) d =
  recordsOn m d ++ List.map recordOf (filter (fun c => dateOf c = d) l).
Proof.
  induction l as [|c l IH]; intros m d; simpl.
  - by rewrite app_nil_r.
  - rewrite IH, groupStep_records, filter_cons.
    destruct (decide (dateOf c = d)); [|by rewrite app_nil_r].
    by rewrite <- app_assoc.
Qed.

Lemma groupByDay_recordsOn commits d :
  recordsOn (groupByDay commits) d =
  List.map recordOf (filter (fun c => dateOf c = d) (rev commits)).
Proof.
  unfold groupByDay. rewrite groupFold_records. unfold recordsOn.
  by rewrite lookup_empty.
Qed.

(** X9. The records that [groupByDay] files under a date are the
    records of exactly the commits with that date key, in the reverse of
    the input order (oldest first for a newest-first input); no commit
    is dropped or filed under another date. *)
Theorem groupByDay_records (commits : list Commit) (d : jsstring) :
  recordsOn (groupByDay commits) d =
  List.map recordOf (filter (fun c => dateOf c = d) (rev commits)).
Proof. apply groupByDay_recordsOn. Qed.

Lemma groupStep_lookup m c d :
  groupStep m c !! d =
  if decide (dateOf c = d) then Some (recordsOn m d ++ [recordOf c])
  else m !! d.
Proof.
  unfold groupStep, recordsOn. fold (dateOf c). fold (recordOf c).
  destruct (decide (dateOf c = d)) as [<-|Hd].
  - rewrite lookup_insert_eq.
    destruct (m !! dateOf c) as [l|] eqn:E; [by rewrite E|].
    by rewrite lookup_insert_eq.
  - rewrite lookup_insert_ne by done.
    destruct (m !! dateOf c) as [l|] eqn:E; [done|].
    by rewrite lookup_insert_ne.
Qed.

Lemma groupFold_keys l : forall m d,
  is_Some (fold_left groupStep l m !! d) <->
  is_Some (m !! d) \/ exists c, c ∈ l /\ dateOf c = d.
Proof.
  induction l as [|c l IH]; intros m d; simpl.
  - split; [auto|]. intros [H|(c & Hc & _)]; [done|by apply elem_of_nil in Hc].
  - rewrite IH, groupStep_lookup. split.
    + intros [H|(c' & Hc' & Hd)].
      * destruct (decide (dateOf c = d)); [|by left].
        right. exists c. split; [by left|done].
      * right. exists c'. split; [by right|done].
    + intros [H|(c' & Hc' & Hd)].
      * left. by destruct (decide (dateOf c = d)).
      * apply elem_of_cons in Hc' as [->|Hc'].
        -- left. by destruct (decide (dateOf c = d)).
        -- right. by exists c'.
Qed.

Lemma groupFold_nonempty l : forall m,
  (forall d rs, m !! d = Some rs -> rs <> []) ->
  forall d rs, fold_left groupStep l m !! d = Some rs -> rs <> [].
Proof.
  induction l as [|c l IH]; intros m Hm; [done|]. simpl.
  apply IH. intros d rs. rewrite groupStep_lookup.
  destruct (decide (dateOf c = d)); [|by apply Hm].
  intros [= <-]. by destruct (recordsOn m d).
Qed.

(** X10. The dates that [groupByDay] holds are exactly the date keys of
    the commits, and no date is mapped to an empty list. *)
Theorem groupByDay_keys (commits : list Commit) (d : jsstring) :
  (is_Some (groupByDay commits !! d) <->
   exists c, c ∈ commits /\ dateOf c = d)
  /\ (forall rs, groupByDay commits !! d = Some rs -> rs <> []).
Proof.
  unfold groupByDay. split.
  - rewrite groupFold_keys, lookup_empty. split.
    + intros [[? ?]|(c & Hc & Hd)]; [done|].
      exists c. split; [|done]. by rewrite list_elem_of_In, in_rev, <- list_elem_of_In.
    + intros (c & Hc & Hd). right. exists c. split; [|done].
      by rewrite list_elem_of_In, <- in_rev, <- list_elem_of_In.
  - apply groupFold_nonempty. intros d' rs. by rewrite lookup_empty.
Qed.

Lemma getDaySummaries_length daysAgo nowISO fetchCommits n :
  (length (getDaySummaries daysAgo nowISO fetchCommits n) <= Z.to_nat n)%nat.
Proof.
  unfold getDaySummaries. rewrite flat_map_dayAt, length_map.
  etransitivity; [apply length_filter|]. by rewrite length_seq.
Qed.

(** X11. A run returns at most [n] summaries, none for [n <= 0]; each is
    the summary of one of the [n] most recent days and holds the records
    of the fetched commits of that date, oldest first for a newest-first
    answer of the API. *)
Theorem getDaySummaries_content (daysAgo : Z -> jsstring) (nowISO : jsstring)
    (fetchCommits : jsstring -> jsstring -> list Commit) (n : Z) :
  (length (getDaySummaries daysAgo nowISO fetchCommits n) <= Z.to_nat n)%nat
  /\ Forall
       (fun s =>
          exists i : nat,
            (Z.of_nat i < n)%Z /\
            date s = daysAgo (Z.of_nat i) /\
            cycles s =
              List.map recordOf
                (filter (fun c => dateOf c = daysAgo (Z.of_nat i))
                   (rev (fetchCommits (daysAgo n ++ lit "T00:00:00Z") nowISO))) /\
            s = summarizeDay (date s) (cycles s))
       (getDaySummaries daysAgo nowISO fetchCommits n).
Proof.
  split; [apply getDaySummaries_length|].
  unfold getDaySummaries. rewrite flat_map_dayAt.
  set (grouped := fetchGrouped daysAgo nowISO fetchCommits n).
  apply Forall_forall. intros s.
    rewrite list_elem_of_In, in_map_iff.
    intros (i & <- & Hi). rewrite <- list_elem_of_In in Hi.
    apply list_elem_of_filter in Hi as [_ Hi]. apply elem_of_seq in Hi.
    exists i. unfold summaryAt, summarizeDay. cbn [date cycles].
    split_and!; [lia|done| |done].
    unfold grouped, fetchGrouped. apply groupByDay_recordsOn.
Qed.

(** * Further properties of the day summary *)

(** First and last present value after the loop, from any start. *)
Lemma track_fold (f : CycleEntry -> option number) cs : forall s e,
  fold_left (fun se c => track (f c) se) cs (s, e) =
  (match s with
   | Some x => Some x
   | None => head (omap f cs)
   end,
   match last (omap f cs) with
   | Some y => Some y
   | None => e
   end).
Proof.
  induction cs as [|c cs IH]; intros s e.
  - by destruct s.
  - cbn [fold_left]. destruct (f c) as [x|] eqn:E.
    + assert (omap f (c :: cs) = x :: omap f cs) as ->
        by (simpl; by rewrite E).
      cbn [track fst snd]. rewrite IH, last_cons. cbn [head].
      destruct s, (last (omap f cs)); done.
    + assert (omap f (c :: cs) = omap f cs) as ->
        by (simpl; by rewrite E).
      cbn [track]. apply IH.
Qed.

Lemma tally_balances cs : forall t,
  (balStart (fold_left tallyStep cs t), balEnd (fold_left tallyStep cs t)) =
  fold_left (fun se c => track (balance c) se) cs (balStart t, balEnd t).
Proof.
  induction cs as [|c cs IH]; intros t; [done|]. simpl. rewrite IH.
  f_equal. unfold tallyStep. cbn [balStart balEnd].
  destruct (status c); cbn [bump balStart balEnd]; by destruct (track _ _).
Qed.

Lemma tally_heartbeats cs : forall t,
  (hbStart (fold_left tallyStep cs t), hbEnd (fold_left tallyStep cs t)) =
  fold_left (fun se c => track (heartbeat c) se) cs (hbStart t, hbEnd t).
Proof.
  induction cs as [|c cs IH]; intros t; [done|]. simpl. rewrite IH.
  f_equal. unfold tallyStep. cbn [hbStart hbEnd].
  destruct (status c); cbn [bump hbStart hbEnd]; by destruct (track _ _).
Qed.

Lemma tally_events cs : forall t,
  allEvents (fold_left tallyStep cs t) =
  allEvents t ++ concat (List.map events cs).
Proof.
  induction cs as [|c cs IH]; intros t; simpl.
  - by rewrite app_nil_r.
  - rewrite IH. unfold tallyStep. cbn [allEvents].
    destruct (status c); simpl; by rewrite <- app_assoc.
Qed.

Lemma summarizeDay_first_last_aux date cs :
  balanceStart (summarizeDay date cs) = head (omap balance cs)
  /\ balanceEnd (summarizeDay date cs) = last (omap balance cs)
  /\ heartbeatStart (summarizeDay date cs) = head (omap heartbeat cs)
  /\ heartbeatEnd (summarizeDay date cs) = last (omap heartbeat cs).
Proof.
  unfold summarizeDay. cbn [balanceStart balanceEnd heartbeatStart heartbeatEnd].
  pose proof (tally_balances cs tally0) as Hb.
  pose proof (tally_heartbeats cs tally0) as Hh.
  rewrite track_fold in Hb, Hh. simpl in Hb, Hh.
  injection Hb as -> ->. injection Hh as -> ->.
  split_and!; try done.
  - by destruct (last (omap balance cs)).
  - by destruct (last (omap heartbeat cs)).
Qed.

(** X12. In a day summary the start balance is the first balance present
    in the records, in their order, and the end balance is the last one;
    the delta is their difference when there is one; likewise for the
    heartbeats. *)
Theorem summarizeDay_first_last (date : jsstring) (cs : list CycleEntry) :
  balanceStart (summarizeDay date cs) = head (omap balance cs)
  /\ balanceEnd (summarizeDay date cs) = last (omap balance cs)
  /\ dayBalanceDelta (summarizeDay date cs) =
       match head (omap balance cs), last (omap balance cs) with
       | Some s, Some e => Some (num_sub e s)
       | _, _ => None
       end
  /\ heartbeatStart (summarizeDay date cs) = head (omap heartbeat cs)
  /\ heartbeatEnd (summarizeDay date cs) = last (omap heartbeat cs).
Proof.
  destruct (summarizeDay_first_last_aux date cs) as (Hs & He & Hhs & Hhe).
  split_and!; try done.
  rewrite <- Hs, <- He. done.
Qed.

(** X13. The events of a day summary are the events of its records, one
    record after the other, duplicates included; the records and the
    date are kept as given. *)
Theorem summarizeDay_events (d : jsstring) (cs : list CycleEntry) :
  dayEvents (summarizeDay d cs) = concat (List.map events cs)
  /\ cycles (summarizeDay d cs) = cs
  /\ date (summarizeDay d cs) = d.
Proof.
  split_and!; [|done..].
  unfold summarizeDay. cbn [dayEvents]. by rewrite tally_events.
Qed.

Lemma countStatus_app st l1 l2 :
  countStatus st (l1 ++ l2) = (countStatus st l1 + countStatus st l2)%nat.
Proof. unfold countStatus. by rewrite filter_app, length_app. Qed.

Lemma summarizeDay_tally date cs :
  idleCycles (summarizeDay date cs) = countStatus idle cs
  /\ activeCycles (summarizeDay date cs) = countStatus active cs
  /\ errorCycles (summarizeDay date cs) = countStatus error cs
  /\ manualCommits (summarizeDay date cs) = countStatus manual cs
  /\ totalCycles (summarizeDay date cs) =
       (countStatus idle cs + countStatus active cs + countStatus error cs)%nat.
Proof.
  unfold summarizeDay.
  cbn [totalCycles idleCycles activeCycles errorCycles manualCommits].
  destruct (tally_counts cs tally0) as (-> & -> & -> & ->). done.
Qed.

(** X14. Summaries compose over concatenation: for records [l1] followed
    by [l2] the counts add up, the events are appended, the start values
    are those of [l1] when it has some and else those of [l2], and the
    end values are those of [l2] when it has some and else those of
    [l1]. *)
Theorem summarizeDay_app (date : jsstring) (l1 l2 : list CycleEntry) :
  totalCycles (summarizeDay date (l1 ++ l2)) =
    (totalCycles (summarizeDay date l1) + totalCycles (summarizeDay date l2))%nat
  /\ manualCommits (summarizeDay date (l1 ++ l2)) =
    (manualCommits (summarizeDay date l1) + manualCommits (summarizeDay date l2))%nat
  /\ dayEvents (summarizeDay date (l1 ++ l2)) =
    dayEvents (summarizeDay date l1) ++ dayEvents (summarizeDay date l2)
  /\ balanceStart (summarizeDay date (l1 ++ l2)) =
    match balanceStart (summarizeDay date l1) with
    | Some s => Some s
    | None => balanceStart (summarizeDay date l2)
    end
  /\ balanceEnd (summarizeDay date (l1 ++ l2)) =
    match balanceEnd (summarizeDay date l2) with
    | Some e => Some e
    | None => balanceEnd (summarizeDay date l1)
    end
  /\ heartbeatStart (summarizeDay date (l1 ++ l2)) =
    match heartbeatStart (summarizeDay date l1) with
    | Some s => Some s
    | None => heartbeatStart (summarizeDay date l2)
    end
  /\ heartbeatEnd (summarizeDay date (l1 ++ l2)) =
    match heartbeatEnd (summarizeDay date l2) with
    | Some e => Some e
    | None => heartbeatEnd (summarizeDay date l1)
    end.
Proof.
  destruct (summarizeDay_first_last_aux date (l1 ++ l2)) as (-> & -> & -> & ->).
  destruct (summarizeDay_first_last_aux date l1) as (-> & -> & -> & ->).
  destruct (summarizeDay_first_last_aux date l2) as (-> & -> & -> & ->).
  destruct (summarizeDay_tally date (l1 ++ l2)) as (_ & _ & _ & -> & ->).
  destruct (summarizeDay_tally date l1) as (_ & _ & _ & -> & ->).
  destruct (summarizeDay_tally date l2) as (_ & _ & _ & -> & ->).
  rewrite !countStatus_app, !omap_app.
  split_and!.
  - lia.
  - done.
  - unfold summarizeDay. cbn [dayEvents]. rewrite !tally_events. simpl.
    by rewrite map_app, concat_app.
  - by destruct (omap balance l1).
  - rewrite last_app. by destruct (last (omap balance l2)).
  - by destruct (omap heartbeat l1).
  - rewrite last_app. by destruct (last (omap heartbeat l2)).
Qed.

Lemma omap_rev (f : CycleEntry -> option number) cs :
  omap f (rev cs) = rev (omap f cs).
Proof.
  induction cs as [|c cs IH]; [done|]. simpl. rewrite omap_app, IH. simpl.
  destruct (f c); simpl; [done|by rewrite app_nil_r].
Qed.

Lemma head_rev_last (l : list number) : head (rev l) = last l.
Proof.
  rewrite <- (rev_involutive l) at 2. generalize (rev l). intros l'.
  destruct l' as [|x l']; [done|]. simpl. by rewrite last_snoc.
Qed.

(** X15. The summary depends on the order of the records: on the
    reversed records the start and end balances (and heartbeats) are
    swapped, while the counts are unchanged. *)
Theorem summarizeDay_rev (date : jsstring) (cs : list CycleEntry) :
  balanceStart (summarizeDay date (rev cs)) = balanceEnd (summarizeDay date cs)
  /\ balanceEnd (summarizeDay date (rev cs)) = balanceStart (summarizeDay date cs)
  /\ heartbeatStart (summarizeDay date (rev cs)) = heartbeatEnd (summarizeDay date cs)
  /\ heartbeatEnd (summarizeDay date (rev cs)) = heartbeatStart (summarizeDay date cs)
  /\ totalCycles (summarizeDay date (rev cs)) = totalCycles (summarizeDay date cs)
  /\ manualCommits (summarizeDay date (rev cs)) = manualCommits (summarizeDay date cs).
Proof.
  destruct (summarizeDay_first_last_aux date (rev cs)) as (-> & -> & -> & ->).
  destruct (summarizeDay_first_last_aux date cs) as (-> & -> & -> & ->).
  destruct (summarizeDay_tally date (rev cs)) as (_ & _ & _ & -> & ->).
  destruct (summarizeDay_tally date cs) as (_ & _ & _ & -> & ->).
  rewrite !omap_rev.
  assert (forall st, countStatus st (rev cs) = countStatus st cs) as Hc.
  { intros st. induction cs as [|c cs IH]; [done|]. simpl.
    rewrite countStatus_app, IH, !countStatus_cons. unfold countStatus at 2.
    simpl. lia. }
  rewrite !Hc. split_and!; try done.
  - apply head_rev_last.
  - by rewrite <- head_rev_last, rev_involutive.
  - apply head_rev_last.
  - by rewrite <- head_rev_last, rev_involutive.
Qed.

(** * Further properties of the narrative *)

(** Decimal digits start with a digit. *)
Lemma decimal_head z : exists c t, decimal z = c :: t /\ isDigit c = true.
Proof.
  unfold decimal, NilZero.string_of_uint.
  destruct (N.to_uint (Z.to_N z)); by eexists _, _.
Qed.

Lemma shortestDecimal_head m :
  exists c t, shortestDecimal m = c :: t /\ isDigit c = true.
Proof.
  unfold shortestDecimal.
  destruct (shortestFrom _ _ _ _) as [[[s n] k]|]; [|apply decimal_head].
  unfold placeDigits. destruct (decimal_head s) as (c & t & -> & Hc).
  destruct (n <=? 21)%Z; by eexists _, _.
Qed.

(** The decimal text of a counter starts with a digit. *)
Lemma showCount_head n :
  exists c t, showCount n = c :: t /\ isDigit c = true.
Proof.
  unfold showCount, ofCount, num_toString.
  destruct (Z.abs (Z.of_nat n) <? 2 ^ 53)%Z.
  - destruct (Z.of_nat n) as [|p|p] eqn:E; [by eexists _, _| |lia].
    unfold Z.to_int, NilZero.string_of_int, NilZero.string_of_uint.
    destruct (Pos.to_uint p); by eexists _, _.
  - destruct (Z.ltb_spec (Z.of_nat n) 0); [lia|]. apply shortestDecimal_head.
Qed.

(** The first clause is always there and never starts with "N". *)
Lemma cyclesPart_head day :
  exists c t, cyclesPart day = [c :: t] /\ c <> ch "N".
Proof.
  unfold cyclesPart.
  destruct (_ && _).
  { destruct (showCount_head (manualCommits day)) as (c & t & -> & Hc).
    eexists c, _. split; [done|]. intros ->. done. }
  destruct (_ && _); [by eexists _, _|].
  destruct (_ =? _)%nat; by eexists _, _.
Qed.

Lemma join_head sep c t rest :
  exists t', join sep ((c :: t) :: rest) = c :: t'.
Proof. destruct rest; by eexists. Qed.

(** The array of clauses, when there is one, starts with the first
    clause. *)
Lemma narrateParts_clauses_opt toLocaleString day :
  (exists parts rest x t,
      narrateParts toLocaleString day = Some ((x :: t) :: rest)
      /\ x <> ch "N" /\ parts = (x :: t) :: rest)
  \/ narrateParts toLocaleString day = None.
Proof.
  unfold narrateParts. destruct (balancePart toLocaleString day) as [bal|]; [|by right].
  left. destruct (cyclesPart_head day) as (x & t & -> & Hx).
  by eexists _, _, x, t.
Qed.

Lemma summarizeDay_not_empty d c cs :
  (totalCycles (summarizeDay d (c :: cs)) =? 0)%nat
  && (manualCommits (summarizeDay d (c :: cs)) =? 0)%nat = false.
Proof.
  destruct (summarizeDay_tally d (c :: cs)) as (_ & _ & _ & Hm & Htot).
  pose proof (countStatus_total (c :: cs)) as Hlen. simpl in Hlen.
  apply andb_false_iff.
  destruct (Nat.eqb_spec (totalCycles (summarizeDay d (c :: cs))) 0); [|by left].
  right. apply Nat.eqb_neq. lia.
Qed.

Lemma narrateDay_nonempty_head toLocaleString d c cs :
  exists x t,
    narrateDay toLocaleString (summarizeDay d (c :: cs)) = Some (x :: t)
    /\ x <> ch "N".
Proof.
  destruct (narrateDay_total toLocaleString d (c :: cs)) as [text Ht].
  unfold narrateDay in *. rewrite summarizeDay_not_empty in *.
  destruct (narrateParts_clauses_opt toLocaleString (summarizeDay d (c :: cs)))
    as [(parts & rest & x & t & Hp & Hx & _)|Hn].
  - rewrite Hp. destruct (join_head (lit " ") x t rest) as [t' ->]. eauto.
  - by rewrite Hn in Ht.
Qed.

(** X16. On every summary built by [summarizeDay], [narrateDay] returns
    a text (the balance clause never dereferences an absent balance),
    and the text is the fixed sentence "No recorded activity this day."
    exactly when the day has no records. *)
Theorem narrateDay_of_summary (toLocaleString : number -> jsstring)
    (d : jsstring) (cs : list CycleEntry) :
  exists text,
    narrateDay toLocaleString (summarizeDay d cs) = Some text
    /\ (text = lit "No recorded activity this day." <-> cs = []).
Proof.
  destruct cs as [|c cs].
  - exists (lit "No recorded activity this day."). done.
  - destruct (narrateDay_nonempty_head toLocaleString d c cs) as (x & t & Ht & Hx).
    exists (x :: t). split; [done|]. split; [|done].
    intros [= -> _]. done.
Qed.

(** X17. The balance clause of a summarised day follows the first and
    last balance of its records: no clause without a balance; with
    finite balances [s] first and [e] last, growth by the difference
    when [e > s], spending of its magnitude when [e < s], and a steady
    balance when they are equal.  The difference is the one the
    subtraction of doubles gives, the integer [e - s] itself when that
    is below 2^53 in magnitude. *)
Theorem balancePart_of_summary (toLocaleString : number -> jsstring)
    (d : jsstring) (cs : list CycleEntry) :
  (omap balance cs = [] ->
   balancePart toLocaleString (summarizeDay d cs) = Some [])
  /\ (forall s e,
        head (omap balance cs) = Some (Int s) ->
        last (omap balance cs) = Some (Int e) ->
        balancePart toLocaleString (summarizeDay d cs) =
        Some [if (s <? e)%Z then
                lit "Balance grew by "
                ++ toLocaleString (num_sub (Int e) (Int s))
                ++ lit " sats to " ++ toLocaleString (Int e) ++ lit " sats."
              else if (e <? s)%Z then
                lit "Spent "
                ++ toLocaleString (num_abs (num_sub (Int e) (Int s)))
                ++ lit " sats &mdash; balance now " ++ toLocaleString (Int e)
                ++ lit " sats."
              else
                lit "Balance steady at " ++ toLocaleString (Int e)
                ++ lit " sats."])
  /\ (forall s e, (Z.abs (e - s) < 2 ^ 53)%Z ->
        num_sub (Int e) (Int s) = Int (e - s)
        /\ num_abs (num_sub (Int e) (Int s)) = Int (Z.abs (e - s))).
Proof.
  destruct (summarizeDay_first_last_aux d cs) as (Hs & He & _ & _).
  unfold balancePart, summarizeDay in *.
  cbn [dayBalanceDelta balanceEnd balanceStart] in *. rewrite Hs, He.
  split_and!.
  - intros ->. done.
  - intros s e -> ->. cbn [num_sub].
    rewrite roundDouble_gt0, roundDouble_lt0.
    destruct (Z.ltb_spec 0 (e - s)), (Z.ltb_spec s e); try lia; [done|].
    by destruct (Z.ltb_spec (e - s) 0), (Z.ltb_spec e s); try lia.
  - intros s e Hb. cbn [num_sub]. by rewrite roundDouble_safe.
Qed.

(** * Properties of the HTML escaping *)

Lemma replaceAll_app c r a b :
  replaceAll c r (a ++ b) = replaceAll c r a ++ replaceAll c r b.
Proof. apply flat_map_app. Qed.

Lemma escapeHtml_app_aux a b : escapeHtml (a ++ b) = escapeHtml a ++ escapeHtml b.
Proof. unfold escapeHtml. by rewrite !replaceAll_app. Qed.

Lemma escapeHtml_one x : escapeHtml [x] = escapeChar x.
Proof.
  unfold escapeChar.
  destruct (N.eqb_spec x 38) as [->|H1]; [done|].
  destruct (N.eqb_spec x 60) as [->|H2]; [done|].
  destruct (N.eqb_spec x 62) as [->|H3]; [done|].
  destruct (N.eqb_spec x 34) as [->|H4]; [done|].
  unfold escapeHtml, replaceAll. simpl.
  change (ch "&") with 38. change (ch "<") with 60. change (ch ">") with 62.
  apply N.eqb_neq in H1, H2, H3, H4.
  rewrite H1. simpl. rewrite H2. simpl. rewrite H3. simpl. by rewrite H4.
Qed.

(** The four replacements, done one after the other, amount to one pass
    that rewrites each character on its own. *)
Lemma escapeHtml_flat s : escapeHtml s = flat_map escapeChar s.
Proof.
  induction s as [|x s IH]; [done|].
  change (x :: s) with ([x] ++ s).
  rewrite escapeHtml_app_aux, escapeHtml_one, IH. done.
Qed.

Lemma escapeChar_cases x :
  (x = 38 /\ escapeChar x = [38; 97; 109; 112; 59])
  \/ (x = 60 /\ escapeChar x = [38; 108; 116; 59])
  \/ (x = 62 /\ escapeChar x = [38; 103; 116; 59])
  \/ (x = 34 /\ escapeChar x = [38; 113; 117; 111; 116; 59])
  \/ (isHtmlSpecial x = false /\ escapeChar x = [x]).
Proof.
  unfold escapeChar, isHtmlSpecial.
  destruct (N.eqb_spec x 38) as [->|H1]; [by left|].
  destruct (N.eqb_spec x 60) as [->|H2]; [by right; left|].
  destruct (N.eqb_spec x 62) as [->|H3]; [by right; right; left|].
  destruct (N.eqb_spec x 34) as [->|H4]; [by right; right; right; left|].
  by right; right; right; right.
Qed.

Lemma escapeHtml_safe_aux s :
  (ch "<" ∉ escapeHtml s) /\ (ch ">" ∉ escapeHtml s) /\ (34 ∉ escapeHtml s).
Proof.
  rewrite escapeHtml_flat. induction s as [|x s (IH1 & IH2 & IH3)]; simpl.
  - split_and!; apply not_elem_of_nil.
  - rewrite !not_elem_of_app.
    assert ((ch "<" ∉ escapeChar x) /\ (ch ">" ∉ escapeChar x)
            /\ (34 ∉ escapeChar x)) as (? & ? & ?); [|done].
    change (ch "<") with 60. change (ch ">") with 62.
    destruct (escapeChar_cases x) as [[_ ->]|[[_ ->]|[[_ ->]|[[_ ->]|[Hx ->]]]]];
      rewrite ?not_elem_of_cons; split_and!; try done; try apply not_elem_of_nil.
    all: unfold isHtmlSpecial in Hx; intros <-; done.
Qed.

(** X18. The text returned by [escapeHtml] holds no angle bracket and no
    double quote, whatever the input.  The four replacements in sequence
    amount to one pass that rewrites each character on its own: the
    ampersand of an inserted entity is not escaped again. *)
Theorem escapeHtml_safe (s : jsstring) :
  (ch "<" ∉ escapeHtml s) /\ (ch ">" ∉ escapeHtml s) /\ (34 ∉ escapeHtml s)
  /\ escapeHtml s = flat_map escapeChar s.
Proof.
  destruct (escapeHtml_safe_aux s) as (? & ? & ?).
  split_and!; try done. apply escapeHtml_flat.
Qed.

Lemma escapeChar_inj x y r1 r2 :
  escapeChar x ++ r1 = escapeChar y ++ r2 -> x = y /\ r1 = r2.
Proof.
  destruct (escapeChar_cases x) as [[Ex ->]|[[Ex ->]|[[Ex ->]|[[Ex ->]|[Ex ->]]]]];
  destruct (escapeChar_cases y) as [[Ey ->]|[[Ey ->]|[[Ey ->]|[[Ey ->]|[Ey ->]]]]];
    simpl; intros H; simplify_eq; try done.
  all: try (by vm_compute in Ey). all: try (by vm_compute in Ex).
Qed.

Lemma escapeChar_nonempty x r : escapeChar x ++ r <> [].
Proof.
  by destruct (escapeChar_cases x) as [[_ ->]|[[_ ->]|[[_ ->]|[[_ ->]|[_ ->]]]]].
Qed.

(** X19. [escapeHtml] is injective: two different texts never have the
    same escaped form, so the original can always be recovered. *)
Theorem escapeHtml_injective (s1 s2 : jsstring) :
  escapeHtml s1 = escapeHtml s2 -> s1 = s2.
Proof.
  rewrite !escapeHtml_flat. revert s2.
  induction s1 as [|x s1 IH]; intros [|y s2]; simpl; intros H.
  - done.
  - symmetry in H. by apply escapeChar_nonempty in H.
  - by apply escapeChar_nonempty in H.
  - apply escapeChar_inj in H as [-> H]. f_equal. by apply IH.
Qed.

Lemma escapeHtml_injective_witness :
  lit "<b>Tom & Jerry</b>" = lit "<b>Tom & Jerry</b>".
Proof. apply escapeHtml_injective. reflexivity. Defined.

Lemma escapeChar_length x :
  (1 <= length (escapeChar x))%nat
  /\ (length (escapeChar x) = 1%nat -> isHtmlSpecial x = false).
Proof.
  destruct (escapeChar_cases x) as [[_ ->]|[[_ ->]|[[_ ->]|[[_ ->]|[Hx ->]]]]];
    simpl; split; try lia; done.
Qed.

Lemma escapeHtml_length s :
  (length s <= length (escapeHtml s))%nat
  /\ (length (escapeHtml s) = length s -> allOf (fun x => negb (isHtmlSpecial x)) s).
Proof.
  rewrite escapeHtml_flat. induction s as [|x s [IH1 IH2]]; simpl.
  - split; [done|]. intros _. constructor.
  - rewrite length_app. destruct (escapeChar_length x) as [H1 H2].
    split; [lia|]. intros H. constructor.
    + rewrite H2; [done|lia].
    + apply IH2. lia.
Qed.

(** X20. [escapeHtml] distributes over concatenation, never shortens a
    text, and returns the text unchanged exactly when it holds none of
    the four special characters. *)
Theorem escapeHtml_identity (a b : jsstring) :
  escapeHtml (a ++ b) = escapeHtml a ++ escapeHtml b
  /\ (length a <= length (escapeHtml a))%nat
  /\ (escapeHtml a = a <-> allOf (fun x => negb (isHtmlSpecial x)) a).
Proof.
  split_and!; [apply escapeHtml_app_aux|apply escapeHtml_length|].
  split.
  - intros H. apply escapeHtml_length. by rewrite H.
  - rewrite escapeHtml_flat. induction 1 as [|x s Hx _ IH]; [done|].
    simpl. rewrite IH.
    destruct (escapeChar_cases x) as [[Ex _]|[[Ex _]|[[Ex _]|[[Ex _]|[_ ->]]]]];
      try done; by rewrite Ex in Hx.
Qed.

(** * Properties of the fetch loop *)

Section FetchLoop.

Variable fetch : jsstring -> response.
Variable since until : jsstring.

(** What the loop has appended when it stops: consecutive pages, from
    the current one on, each answered ok and not empty, all but the last
    one full. *)
Lemma fetchPages_pages left : forall page acc cs,
  fetchPages fetch since until left page acc = Some cs ->
  exists pages,
    cs = acc ++ concat pages
    /\ (length pages <= left)%nat
    /\ (forall i data,
          pages !! i = Some data ->
          fetch (commitsUrl since until (page + i)) = Ok data /\ data <> [])
    /\ (forall i data,
          pages !! i = Some data -> (S i < length pages)%nat ->
          (perPage <= length data)%nat).
Proof.
  induction left as [|left IH]; intros page acc cs; simpl.
  - intros [= <-]. exists []. rewrite app_nil_r.
    split_and!; [done|done| |]; intros i data Hd; by destruct i.
  - destruct (fetch (commitsUrl since until page)) as [| |data] eqn:E; [done| |].
    + intros [= <-]. exists []. rewrite app_nil_r.
      split_and!; [done|simpl; lia| |]; intros i data Hd; by destruct i.
    + destruct (Nat.eqb_spec (length data) 0) as [E0|E0].
      * intros [= <-]. exists []. rewrite app_nil_r.
        split_and!; [done|simpl; lia| |]; intros i d Hd; by destruct i.
      * destruct (Nat.ltb_spec (length data) perPage) as [Es|Es].
        -- intros [= <-]. exists [data]. simpl. rewrite app_nil_r.
           split_and!; [done|lia| |].
           ++ intros [|i] d; [|by destruct i]. intros [= <-].
              rewrite Nat.add_0_r. split; [done|]. by destruct data.
           ++ intros i d _ Hi. simpl in Hi. lia.
        -- intros H. apply IH in H as (pages & -> & Hlen & Hok & Hfull).
           exists (data :: pages). simpl. rewrite <- app_assoc.
           split_and!; [done|lia| |].
           ++ intros [|i] d; simpl.
              ** intros [= <-]. rewrite Nat.add_0_r. split; [done|].
                 by destruct data.
              ** intros Hd. replace (page + S i)%nat with (S page + i)%nat by lia.
                 by apply Hok.
           ++ intros [|i] d; simpl.
              ** by intros [= <-] _.
              ** intros Hd Hi. apply (Hfull i); [done|lia].
Qed.

Lemma fetchPages_rejected left : forall page acc,
  fetchPages fetch since until left page acc = None ->
  exists i, (i < left)%nat
            /\ fetch (commitsUrl since until (page + i)) = Rejected.
Proof.
  induction left as [|left IH]; intros page acc; simpl; [done|].
  destruct (fetch (commitsUrl since until page)) as [| |data] eqn:E; [|done|].
  - intros _. exists 0%nat. rewrite Nat.add_0_r. split; [lia|done].
  - destruct (length data =? 0)%nat; [done|].
    destruct (length data <? perPage)%nat; [done|].
    intros (i & Hi & Hr)%IH. exists (S i). split; [lia|].
    by replace (page + S i)%nat with (S page + i)%nat by lia.
Qed.

Lemma concat_length_bound (pages : list (list Commit)) k :
  (forall data, data ∈ pages -> (length data <= k)%nat) ->
  (length (concat pages) <= k * length pages)%nat.
Proof.
  induction pages as [|p pages IH]; intros H; simpl; [lia|].
  rewrite length_app.
  assert (length p <= k)%nat by (apply H; by left).
  assert (length (concat pages) <= k * length pages)%nat
    by (apply IH; intros d Hd; apply H; by right).
  lia.
Qed.

(** X22. When [fetchCommits] returns, its result is the concatenation
    of the answers to pages 1, 2, ... up to some page not above 10, each
    answered ok and not empty, and every page before the last one held
    at least 100 commits. *)
Theorem fetchCommits_pages (cs : list Commit) :
  fetchCommits fetch since until = Some cs ->
  exists pages,
    cs = concat pages
    /\ (length pages <= 10)%nat
    /\ (forall i data,
          pages !! i = Some data ->
          fetch (commitsUrl since until (S i)) = Ok data /\ data <> [])
    /\ (forall i data,
          pages !! i = Some data -> (S i < length pages)%nat ->
          (100 <= length data)%nat).
Proof.
  unfold fetchCommits. intros (pages & -> & H)%fetchPages_pages.
  exists pages. done.
Qed.

(** X23. If the API never answers with more than 100 commits a page,
    [fetchCommits] returns at most 1000 commits. *)
Theorem fetchCommits_bound (cs : list Commit) :
  (forall url data, fetch url = Ok data -> (length data <= 100)%nat) ->
  fetchCommits fetch since until = Some cs ->
  (length cs <= 1000)%nat.
Proof.
  unfold fetchCommits. intros Hapi (pages & -> & Hlen & Hok & _)%fetchPages_pages.
  simpl. etransitivity; [apply (concat_length_bound _ 100)|lia].
  intros data (i & Hi)%list_elem_of_lookup.
  destruct (Hok i data Hi) as [Hf _]. by apply Hapi in Hf.
Qed.

(** X24. [fetchCommits] fails only when one of the requests for pages 1
    to 10 is rejected; an answer that is not ok ends the loop without
    failure. *)
Theorem fetchCommits_rejected :
  fetchCommits fetch since until = None ->
  exists page, (1 <= page <= 10)%nat
               /\ fetch (commitsUrl since until page) = Rejected.
Proof.
  unfold fetchCommits. intros (i & Hi & Hr)%fetchPages_rejected.
  exists (S i). split; [lia|done].
Qed.

End FetchLoop.

(** One full page and a short one: 103 commits in two pages. *)
Lemma fetchCommits_pages_witness :
  exists pages,
    replicate 103 sampleCommit = concat pages
    /\ (length pages <= 10)%nat
    /\ (forall i data,
          pages !! i = Some data ->
          sampleFetch (commitsUrl (lit "2026-02-07T00:00:00Z")
                         (lit "2026-02-14T12:00:00.000Z") (S i)) = Ok data
          /\ data <> [])
    /\ (forall i data,
          pages !! i = Some data -> (S i < length pages)%nat ->
          (100 <= length data)%nat).
Proof.
  apply (fetchCommits_pages sampleFetch (lit "2026-02-07T00:00:00Z")
           (lit "2026-02-14T12:00:00.000Z")).
  by vm_compute.
Defined.

Lemma fetchCommits_bound_witness :
  (length (replicate 103 sampleCommit) <= 1000)%nat.
Proof.
  apply (fetchCommits_bound sampleFetch (lit "2026-02-07T00:00:00Z")
           (lit "2026-02-14T12:00:00.000Z")).
  - intros url data. unfold sampleFetch.
    destruct (decide _); [by intros [= <-]|].
    destruct (decide _); [|done]. intros [= <-]. simpl. lia.
  - by vm_compute.
Defined.

(** A network failure on the first request. *)
Lemma fetchCommits_rejected_witness :
  exists page, (1 <= page <= 10)%nat
               /\ (fun _ : jsstring => Rejected)
                    (commitsUrl (lit "2026-02-07T00:00:00Z")
                       (lit "2026-02-14T12:00:00.000Z") page) = Rejected.
Proof.
  apply (fetchCommits_rejected (fun _ => Rejected) (lit "2026-02-07T00:00:00Z")
           (lit "2026-02-14T12:00:00.000Z")).
  reflexivity.
Defined.

(** * The day count of the API route *)

Lemma num_min_cap a z : num_min a (Int 30) = Int z -> (z <= 30)%Z.
Proof.
  destruct a as [|[]|x]; simpl; intros [= <-]; lia.
Qed.

(** The double of an integer that is not negative, capped at 30. *)
Lemma num_min_round v :
  (0 <= v)%Z -> num_min (roundDouble v) (Int 30) = Int (Z.min v 30).
Proof.
  intros Hv. destruct (Z.lt_ge_cases (Z.abs v) (2 ^ 53)) as [H|H].
  - by rewrite roundDouble_safe.
  - destruct (roundDouble_large v H) as [-> | (m & Hm & ->)].
    + destruct (Z.ltb_spec v 0); [lia|]. simpl. f_equal. lia.
    + simpl. f_equal. nia.
Qed.

(** X25. The day count of [/api/days] is 7 when the parameter is absent
    or empty and the decimal value capped at 30 when it is a string of
    digits; it is never above 30, so a run for it returns at most 30
    summaries.  There is no lower bound. *)
Theorem daysParam_cap :
  daysParam None = Int 7
  /\ daysParam (Some []) = Int 7
  /\ (forall ds, ds <> [] -> allOf isDigit ds ->
        daysParam (Some ds) = Int (Z.min (decimalValue ds) 30))
  /\ (forall p z, daysParam p = Int z -> (z <= 30)%Z)
  /\ (forall p z daysAgo nowISO fetched,
        daysParam p = Int z ->
        (length (getDaySummaries daysAgo nowISO fetched z) <= 30)%nat)
  /\ daysParam (Some (lit "-3")) = Int (-3).
Proof.
  assert (Hcap : forall p z, daysParam p = Int z -> (z <= 30)%Z).
  { intros p z. unfold daysParam. apply num_min_cap. }
  split_and!; [done|done| |done| |done].
  - intros ds Hne Hd. unfold daysParam.
    destruct ds as [|c ds]; [done|]. cbn [length Nat.ltb Nat.leb].
    rewrite parseInt_digits by done.
    by apply num_min_round, decimalValue_nonneg.
  - intros p z daysAgo nowISO fetched Hz%Hcap.
    etransitivity; [apply getDaySummaries_length|]. lia.
Qed.

(** * The line of a record *)

Lemma join_first sep p rest : exists r, join sep (p :: rest) = p ++ r.
Proof.
  destruct rest as [|q rest]; [exists []; by rewrite app_nil_r|].
  by exists (sep ++ join sep (q :: rest)).
Qed.

(** X21. The line that [narrateCycle] writes for a parsed commit: without
    a cycle prefix, the time and the escaped first line of the message;
    with a cycle prefix, the time, the cycle number as [toString] prints
    the double nearest to the digits of the prefix (below 2^53 the
    decimal digits of their value, leading zeros dropped; only the first
    number of a range) and the phrase of the status found in the
    body. *)
Theorem narrateCycle_of_parsed (msg ts : jsstring) :
  (~ cyclePrefix msg ->
   narrateCycle (parseCommit msg ts) =
   lit "<strong>" ++ sliceRange 11 16 ts ++ lit "</strong> &mdash; "
   ++ escapeHtml (firstLine msg))
  /\ (forall pre num tail,
        isCyclePrefix pre num -> msg = pre ++ tail ->
        exists rest,
          narrateCycle (parseCommit msg ts) =
          lit "<strong>" ++ sliceRange 11 16 ts ++ lit "</strong> Cycle "
          ++ num_toString (roundDouble (decimalValue num)) ++ lit ": "
          ++ statusPhrase (classify (trim tail)) ++ rest)
  /\ (forall num, allOf isDigit num -> (decimalValue num < 2 ^ 53)%Z ->
        num_toString (roundDouble (decimalValue num)) =
        decimal (decimalValue num)).
Proof.
  split_and!.
  - intros Hn. unfold parseCommit.
    destruct (js_match cycleRe msg) as [m|] eqn:E; [|done].
    destruct Hn. apply cycleRe_spec. eauto.
  - intros pre num tail Hp Ht.
    pose proof (parseCommit_cycle_value msg ts pre num tail Hp Ht) as Hc.
    assert (is_Some (js_match cycleRe msg)) as [m Hm].
    { apply cycleRe_spec. by exists pre, num, tail. }
    destruct (cycleRe_match_inv _ _ Hm) as (num' & tail' & Hp' & Ht' & _).
    assert (tail' = tail) as ->.
    { rewrite Ht in Ht'.
      by destruct (isCyclePrefix_unique _ _ _ _ _ _ Hp Hp' Ht') as (_ & _ & ->). }
    pose proof (status_of_match msg ts m tail Hm Ht') as Hs.
    unfold narrateCycle. rewrite Hc, Hs.
    assert (timestamp (parseCommit msg ts) = ts) as ->.
    { unfold parseCommit. by rewrite Hm. }
    change ([statusPhrase (classify (trim tail))] ++ ?l) with
      (statusPhrase (classify (trim tail)) :: l).
    match goal with
    | |- context [join ?sep (?p :: ?r)] =>
        destruct (join_first sep p r) as [rest ->]
    end.
    exists rest. done.
  - intros num Hd Hb. pose proof (decimalValue_nonneg num Hd) as Hv.
    rewrite roundDouble_safe by lia. unfold num_toString.
    destruct (Z.ltb_spec (Z.abs (decimalValue num)) (2 ^ 53)); [|lia].
    unfold decimal. by destruct (decimalValue num).
Qed.
